(** * s3bin: a shallow embedding of [cmd/s3bin/s3bin.go]

    s3bin stores binary files in an S3 bucket under a key derived from
    their SHA-1 digest, and leaves a [.sha1] pointer file next to the
    original.  This development embeds [storeKey], [calcSha1], [Put], [Get]
    and [GetDir] together with the parts of the Go runtime they call, and
    proves properties of them.

    Conventions.
    - A Go [string] and a Go [[]byte] are both a Rocq [string] (a sequence
      of 8-bit characters).
    - A Go [error] value is an [option error]; [None] is [nil].
    - Code that touches the file system, the bucket or the logger runs in
      the monad [Body], which threads a [World] and supports Go's early
      [return] and [panic]. *)

From Stdlib Require Import ZArith Ascii Decimal DecimalString DecimalPos DecimalZ.
From stdpp Require Import base gmap strings list.

Local Open Scope Z_scope.
#[local] Arguments String.append !_ _ / : simpl nomatch.

(** ** Byte strings *)

Module bytes.

Definition of_Z (b : Z) : ascii := ascii_of_N (Z.to_N b).
Definition to_Z (c : ascii) : Z := Z.of_N (N_of_ascii c).

Fixpoint to_list (s : string) : list Z :=
    match s with
    | EmptyString => []
    | String c s' => to_Z c :: to_list s'
    end.

Fixpoint of_list (l : list Z) : string :=
    match l with
    | [] => EmptyString
    | b :: l' => String (of_Z b) (of_list l')
    end.

  (** Go's [s[i:j]]: a run-time panic ([None]) unless [i <= j <= len(s)]. *)
Definition slice (s : string) (i j : nat) : option string :=
    if decide (i ≤ j ∧ j ≤ String.length s)%nat
    then Some (String.substring i (j - i) s)
    else None.

Fixpoint all (p : ascii → bool) (s : string) : bool :=
    match s with
    | EmptyString => true
    | String c s' => p c && all p s'
    end.

End bytes.

(** ** Package [strings] (the byte-exact functions) *)

Module strings.

Definition HasSuffix (s suffix : string) : bool :=
    bool_decide (String.length suffix ≤ String.length s)%nat &&
    String.eqb
      (String.substring (String.length s - String.length suffix)
                        (String.length suffix) s)
      suffix.

Definition TrimSuffix (s suffix : string) : string :=
    if HasSuffix s suffix
    then String.substring 0 (String.length s - String.length suffix) s
    else s.

End strings.

(** ** Package [encoding/hex] *)

Module hex.

Definition hextable : string := "0123456789abcdef".

Definition digit (n : N) : ascii :=
    match String.get (N.to_nat n) hextable with
    | Some c => c
    | None => "0"%char
    end.

  (** [dst[j] = hextable[v>>4]; dst[j+1] = hextable[v&0x0f]] *)
Fixpoint EncodeToString (src : string) : string :=
    match src with
    | EmptyString => EmptyString
    | String v src' =>
        String (digit (N.shiftr (N_of_ascii v) 4))
          (String (digit (N.land (N_of_ascii v) 15)) (EncodeToString src'))
    end.

Definition is_lower_hex (c : ascii) : bool :=
    let n := N_of_ascii c in
    ((48 <=? n) && (n <=? 57) || (97 <=? n) && (n <=? 102))%N.

End hex.

(** ** Package [crypto/sha1] (FIPS 180-4), on 32-bit words held in [Z] *)

Module sha1.

Definition u32 (x : Z) : Z := x mod 2 ^ 32.

Definition rotl (n x : Z) : Z :=
    u32 (Z.lor (Z.shiftl x n) (Z.shiftr x (32 - n))).

Definition be32 (b0 b1 b2 b3 : Z) : Z :=
    Z.lor (Z.shiftl b0 24) (Z.lor (Z.shiftl b1 16) (Z.lor (Z.shiftl b2 8) b3)).

Definition word_bytes (w : Z) : list Z :=
    [Z.land (Z.shiftr w 24) 255; Z.land (Z.shiftr w 16) 255;
     Z.land (Z.shiftr w 8) 255; Z.land w 255].

Fixpoint words (bs : list Z) : list Z :=
    match bs with
    | b0 :: b1 :: b2 :: b3 :: r => be32 b0 b1 b2 b3 :: words r
    | _ => []
    end.

  (** The message, one [0x80] byte, zeros up to 56 modulo 64, and the bit
      length as a big-endian [uint64]. *)
Definition pad (msg : list Z) : list Z :=
    let len := Z.of_nat (length msg) in
    let bits := (8 * len) mod 2 ^ 64 in
    msg ++ [128] ++ replicate (Z.to_nat ((55 - len) mod 64)) 0
        ++ word_bytes (Z.shiftr bits 32) ++ word_bytes (u32 bits).

Fixpoint blocks (n : nat) (bs : list Z) : list (list Z) :=
    match n with
    | O => []
    | S n' => take 64 bs :: blocks n' (drop 64 bs)
    end.

  (** The message schedule, newest word first. *)
Fixpoint extend (n : nat) (w : list Z) : list Z :=
    match n with
    | O => w
    | S n' =>
        let x := Z.lxor (Z.lxor (nth 2 w 0) (nth 7 w 0))
                        (Z.lxor (nth 13 w 0) (nth 15 w 0)) in
        extend n' (rotl 1 x :: w)
    end.

Definition schedule (block : list Z) : list Z :=
    rev (extend 64 (rev (words block))).

Record digest := Digest { h0 : Z; h1 : Z; h2 : Z; h3 : Z; h4 : Z }.

Definition init : digest :=
    Digest 0x67452301 0xEFCDAB89 0x98BADCFE 0x10325476 0xC3D2E1F0.

Definition round (st : digest) (tw : nat * Z) : digest :=
    let '(t, w) := tw in
    let '(Digest a b c d e) := st in
    let '(f, k) :=
      if (t <? 20)%nat then
        (Z.lor (Z.land b c) (Z.land (Z.lxor b 0xFFFFFFFF) d), 0x5A827999)
      else if (t <? 40)%nat then
        (Z.lxor (Z.lxor b c) d, 0x6ED9EBA1)
      else if (t <? 60)%nat then
        (Z.lor (Z.lor (Z.land b c) (Z.land b d)) (Z.land c d), 0x8F1BBCDC)
      else
        (Z.lxor (Z.lxor b c) d, 0xCA62C1D6) in
    Digest (u32 (rotl 5 a + f + e + k + w)) a (rotl 30 b) c d.

Definition block (st : digest) (p : list Z) : digest :=
    let '(Digest a b c d e) :=
      fold_left round (combine (seq 0 80) (schedule p)) st in
    Digest (u32 (h0 st + a)) (u32 (h1 st + b)) (u32 (h2 st + c))
           (u32 (h3 st + d)) (u32 (h4 st + e)).

Definition checkSum (msg : list Z) : digest :=
    let p := pad msg in
    fold_left block (blocks (length p / 64) p) init.

  (** [h := sha1.New(); h.Write(data); h.Sum(nil)] *)
Definition Sum (data : string) : string :=
    let '(Digest a b c d e) := checkSum (bytes.to_list data) in
    bytes.of_list
      (word_bytes a ++ word_bytes b ++ word_bytes c ++ word_bytes d
         ++ word_bytes e).

End sha1.


(** ** Errors *)

(** Formatted text, kept as the format string and its operands. *)
Record message := Msg { format : string; operands : list string }.

Inductive error :=
  | ErrNotExist (op path : string)        (* *PathError around ENOENT *)
  | ErrIsDir (op path : string)           (* *PathError around EISDIR *)
  | ErrNoSuchKey (bucket key : string)    (* S3: the object is absent *)
  | ErrRequest (op : string)              (* S3: the request failed *)
  | ErrLib (pkg what : string)            (* gzip, tar and json errors *)
  | EOF                                   (* io.EOF *)
  | SkipDir                               (* filepath.SkipDir *)
  | Fundamental (m : message)             (* errors.New, errors.Errorf *)
  | WithMessage (m : message) (cause : error). (* errors.Wrap, errors.Wrapf *)

Definition notnil (err : option error) : bool :=
  match err with Some _ => true | None => false end.

(** Package [github.com/pkg/errors]. *)
Module errors.

Definition New (text : string) : option error :=
    Some (Fundamental (Msg text [])).

Definition Errorf (fmt : string) (args : list string) : option error :=
    Some (Fundamental (Msg fmt args)).

  (** "If err is nil, Wrap returns nil." *)
Definition Wrapf (err : option error) (fmt : string) (args : list string)
    : option error :=
    match err with
    | None => None
    | Some e => Some (WithMessage (Msg fmt args) e)
    end.

Definition Wrap (err : option error) (text : string) : option error :=
    Wrapf err text [].

Fixpoint cause (e : error) : error :=
    match e with
    | WithMessage _ c => cause c
    | _ => e
    end.

Definition Cause (err : option error) : option error :=
    match err with
    | None => None
    | Some e => Some (cause e)
    end.

End errors.

(** ** The world: file system, bucket, log *)

Inductive fnode :=
  | RegFile (data : string) (mode : Z)
  | Directory (mode : Z).

Inductive event :=
  | EvOpen (name : string)
  | EvStat (name : string)
  | EvRead (name : string)
  | EvReadFile (name : string)
  | EvWriteFile (name data : string)
  | EvCreate (name : string)
  | EvWrite (name data : string)
  | EvChmod (name : string) (mode : Z)
  | EvLstat (name : string)
  | EvReadDir (name : string)
  | EvPutObject (bucket key body : string)
  | EvGetObject (bucket key : string)
  | EvLog (m : message).

Definition is_s3_event (e : event) : bool :=
  match e with
  | EvPutObject _ _ _ | EvGetObject _ _ => true
  | _ => false
  end.

(** [fs] gives, for each path as the program spells it, the node that path
    names; two keys are two files.  Directory listings are computed from
    the keys, which are canonical paths ([a/b], no trailing separator). *)
Record World := mkWorld {
  fs : gmap string fnode;              (* path -> node *)
  umask : Z;
  objects : gmap (string * string) string;  (* (bucket, key) -> body *)
  s3_reachable : bool;
  trace : list event;                  (* oldest first *)
}.

Definition set_fs (m : gmap string fnode) (w : World) : World :=
  mkWorld m (umask w) (objects w) (s3_reachable w) (trace w).

Definition set_objects (o : gmap (string * string) string) (w : World)
  : World :=
  mkWorld (fs w) (umask w) o (s3_reachable w) (trace w).

Definition record (e : event) (w : World) : World :=
  mkWorld (fs w) (umask w) (objects w) (s3_reachable w) (trace w ++ [e]).

(** ** Function bodies *)

(** How a statement ends: it falls through with a value, it returns from
    the enclosing function, it panics, or the model ran out of fuel. *)
Inductive step (R A : Type) :=
  | Next (a : A)
  | Return (r : R)
  | Panic (why : string)
  | OutOfFuel.
Arguments Next {R A} a.
Arguments Return {R A} r.
Arguments Panic {R A} why.
Arguments OutOfFuel {R A}.

Definition Body (R A : Type) : Type := World → step R A * World.

Definition pure {R A} (a : A) : Body R A := λ w, (Next a, w).
Definition return_ {R A} (r : R) : Body R A := λ w, (Return r, w).
Definition panic {R A} (why : string) : Body R A := λ w, (Panic why, w).
Definition out_of_fuel {R A} : Body R A := λ w, (OutOfFuel, w).

Definition bind {R A B} (m : Body R A) (k : A → Body R B) : Body R B :=
  λ w,
    match m w with
    | (Next a, w') => k a w'
    | (Return r, w') => (Return r, w')
    | (Panic why, w') => (Panic why, w')
    | (OutOfFuel, w') => (OutOfFuel, w')
    end.

(** Calling a function: its [return] value is the value of the call. *)
Definition call {R A} (f : Body A A) : Body R A :=
  λ w,
    match f w with
    | (Next a, w') | (Return a, w') => (Next a, w')
    | (Panic why, w') => (Panic why, w')
    | (OutOfFuel, w') => (OutOfFuel, w')
    end.

(** [if c { ... }] around statements that may return. *)
Definition If {R} (c : bool) (body : Body R unit) : Body R unit :=
  if c then body else pure tt.

Fixpoint forEach {R A} (l : list A) (body : A → Body R unit) : Body R unit :=
  match l with
  | [] => pure tt
  | x :: l' => bind (body x) (λ _, forEach l' body)
  end.

Definition emit {R} (e : event) : Body R unit := λ w, (Next tt, record e w).

Declare Scope go_scope.
Delimit Scope go_scope with go.
Notation "x ← y ; z" := (bind y (λ x, z))
  (at level 20, y at level 100, z at level 200, only parsing) : go_scope.
Notation "' x ← y ; z" := (bind y (λ x, z))
  (at level 20, x pattern, y at level 100, z at level 200, only parsing)
  : go_scope.
Notation "x ;; z" := (bind x (λ _, z))
  (at level 100, z at level 200, only parsing, right associativity)
  : go_scope.
Local Open Scope go_scope.


Module filepath.

  (** These follow [path/filepath] on canonical paths (no [.] or [..]
      element inside, no doubled or trailing separator), which is what
      the keys of [fs] are. *)

Fixpoint lastSlash (path : string) (i : nat) : option nat :=
    match i with
    | O => None
    | S i' =>
        match String.get i' path with
        | Some "/"%char => Some i'
        | _ => lastSlash path i'
        end
    end.

Fixpoint ext_loop (path : string) (i : nat) : string :=
    match i with
    | O => ""
    | S i' =>
        match String.get i' path with
        | Some "/"%char => ""
        | Some "."%char =>
            String.substring i' (String.length path - i') path
        | _ => ext_loop path i'
        end
    end.

  (** [for i := len(path) - 1; i >= 0 && path[i] != '/'; i--] *)
Definition Ext (path : string) : string :=
    ext_loop path (String.length path).

Definition Base (path : string) : string :=
    if String.eqb path "" then "."
    else if String.eqb path "/" then "/"
    else
      match lastSlash path (String.length path) with
      | Some i => String.substring (S i) (String.length path - S i) path
      | None => path
      end.

Definition Dir (path : string) : string :=
    match lastSlash path (String.length path) with
    | Some O => "/"
    | Some i => String.substring 0 i path
    | None => "."
    end.

Definition Join (dir name : string) : string :=
    if String.eqb dir "." then name
    else if String.eqb dir "/" then "/" +:+ name
    else dir +:+ "/" +:+ name.

End filepath.

Module sort.

Fixpoint insert (x : string) (l : list string) : list string :=
    match l with
    | [] => [x]
    | y :: l' => if String.leb x y then x :: l else y :: insert x l'
    end.

Definition Strings (l : list string) : list string :=
    foldr insert [] l.

End sort.

(** ** World primitives *)

Definition world {R} : Body R World := λ w, (Next w, w).
Definition update_fs {R} (name : string) (n : fnode) : Body R unit :=
  λ w, (Next tt, set_fs (<[name := n]> (fs w)) w).

Definition is_dir (n : option fnode) : bool :=
  match n with Some (Directory _) => true | _ => false end.

(** [open(name, O_CREATE|O_TRUNC, perm)]: an existing file is emptied and
    keeps its mode; a new one needs its directory and gets [perm &^ umask]. *)
Definition create_trunc {R} (op name : string) (perm : Z)
  : Body R (option error) :=
  w ← world;
  match fs w !! name with
  | Some (RegFile _ m) => update_fs name (RegFile "" m);; pure None
  | Some (Directory _) => pure (Some (ErrIsDir op name))
  | None =>
      if is_dir (fs w !! filepath.Dir name)
      then update_fs name (RegFile "" (Z.ldiff perm (umask w)));; pure None
      else pure (Some (ErrNotExist op name))
  end.

(** ** Package [io] *)

Module io.

Class Reader (T : Type) :=
  drain : ∀ {R}, T → Body R (string * option error * T).
Class Writer (T : Type) :=
  write : ∀ {R}, T → string → Body R (option error * T).

(** [io.Copy(dst, src)]: everything [src] yields before it ends is written
    to [dst]; a write error wins over a read error, and [io.EOF] is not an
    error. *)
Definition Copy {D S} `{Writer D, Reader S} {R} (dst : D) (src : S)
  : Body R (option error * D * S) :=
  '(data, er, src) ← drain src;
  '(ew, dst) ← write dst data;
  pure (if notnil ew then ew else er, dst, src).

End io.

(** ** Packages [os] and [io/ioutil] *)

Module os.

  (** An open [*os.File] is the path it was opened at. *)
Abbreviation File := string.

Definition ModePerm : Z := 511. (* 0777 *)
Definition ModeDir : Z := 2 ^ 31.
Definition ModeSetuid : Z := 2 ^ 23.
Definition ModeSetgid : Z := 2 ^ 22.
Definition ModeSticky : Z := 2 ^ 20.

  (** The conversion [os.FileMode(x)] to a [uint32]. *)
Definition FileMode (x : Z) : Z := x mod 2 ^ 32.

Record FileInfo := mkFileInfo {
    Name : string; Size : Z; Mode : Z; IsDir : bool }.

Definition IsNotExist (err : option error) : bool :=
    match err with
    | Some (ErrNotExist _ _) => true
    | _ => false
    end.


Definition Open {R} (name : string) : Body R (File * option error) :=
  emit (EvOpen name);;
  w ← world;
  match fs w !! name with
  | Some _ => pure (name, None)
  | None => pure ("", Some (ErrNotExist "open" name))
  end.

Definition Create {R} (name : string) : Body R (File * option error) :=
  emit (EvCreate name);;
  err ← create_trunc "open" name 438; (* 0666 *)
  pure (if notnil err then "" else name, err).

Definition info_of (name : string) (n : fnode) : FileInfo :=
  match n with
  | RegFile data m =>
      mkFileInfo (filepath.Base name) (Z.of_nat (String.length data)) m false
  | Directory m => mkFileInfo (filepath.Base name) 0 m true
  end.

Definition zeroInfo : FileInfo := mkFileInfo "" 0 0 false.

Definition Stat {R} (f : File) : Body R (FileInfo * option error) :=
  emit (EvStat f);;
  w ← world;
  match fs w !! f with
  | Some n => pure (info_of f n, None)
  | None => pure (zeroInfo, Some (ErrNotExist "stat" f))
  end.

Definition Lstat {R} (name : string) : Body R (FileInfo * option error) :=
  emit (EvLstat name);;
  w ← world;
  match fs w !! name with
  | Some n => pure (info_of name n, None)
  | None => pure (zeroInfo, Some (ErrNotExist "lstat" name))
  end.

(** [f.Chmod(mode)] passes the permission, setuid, setgid and sticky bits
    to the system. *)
Definition Chmod {R} (f : File) (mode : Z) : Body R (option error) :=
  emit (EvChmod f mode);;
  w ← world;
  let bits := Z.land mode (ModePerm + ModeSetuid + ModeSetgid + ModeSticky) in
  match fs w !! f with
  | Some (RegFile data _) => update_fs f (RegFile data bits);; pure None
  | Some (Directory _) => update_fs f (Directory (ModeDir + bits));; pure None
  | None => pure (Some (ErrNotExist "chmod" f))
  end.

Definition children (m : gmap string fnode) (dir : string) : list string :=
  omap (λ k, if decide (k ≠ dir ∧ filepath.Dir k = dir)
             then Some (filepath.Base k) else None)
       (map fst (map_to_list m)).

(** [f.Readdirnames(-1)] followed by [sort.Strings]. *)
Definition readDirNames {R} (dirname : string)
  : Body R (list string * option error) :=
  emit (EvReadDir dirname);;
  w ← world;
  match fs w !! dirname with
  | Some (Directory _) => pure (sort.Strings (children (fs w) dirname), None)
  | Some (RegFile _ _) => pure ([], Some (ErrLib "os" "not a directory"))
  | None => pure ([], Some (ErrNotExist "open" dirname))
  end.

End os.

(** Reading an open file to its end. *)
#[global] Instance File_Reader : io.Reader os.File :=
  λ R f,
    emit (EvRead f);;
    w ← world;
    match fs w !! f with
    | Some (RegFile data _) => pure (data, None, f)
    | Some (Directory _) => pure ("", Some (ErrIsDir "read" f), f)
    | None => pure ("", Some (ErrNotExist "read" f), f)
    end.

(** Writing at the end of an open file. *)
#[global] Instance File_Writer : io.Writer os.File :=
  λ R f p,
    emit (EvWrite f p);;
    w ← world;
    match fs w !! f with
    | Some (RegFile data m) => update_fs f (RegFile (data +:+ p) m);; pure (None, f)
    | Some (Directory _) => pure (Some (ErrIsDir "write" f), f)
    | None => pure (Some (ErrNotExist "write" f), f)
    end.

(** A running hash is the bytes written to it so far. *)
Record Hash := mkHash { absorbed : string }.

#[global] Instance Hash_Writer : io.Writer Hash :=
  λ R h p, pure (None, mkHash (absorbed h +:+ p)).

Definition sha1_New : Hash := mkHash "".
Definition Hash_Sum (h : Hash) : string := sha1.Sum (absorbed h).

Module ioutil.

Definition ReadFile {R} (filename : string) : Body R (string * option error) :=
  emit (EvReadFile filename);;
  w ← world;
  match fs w !! filename with
  | Some (RegFile data _) => pure (data, None)
  | Some (Directory _) => pure ("", Some (ErrIsDir "read" filename))
  | None => pure ("", Some (ErrNotExist "open" filename))
  end.

Definition WriteFile {R} (filename data : string) (perm : Z)
  : Body R (option error) :=
  emit (EvWriteFile filename data);;
  err ← create_trunc "open" filename perm;
  if notnil err then pure err
  else
    w ← world;
    match fs w !! filename with
    | Some (RegFile _ m) => update_fs filename (RegFile data m);; pure None
    | _ => pure None
    end.

End ioutil.

Module log.

Definition Printf {R} (fmt : string) (args : list string) : Body R unit :=
  emit (EvLog (Msg fmt args)).

End log.

(** ** The S3 client *)

Module s3.

Record S3 := New { Region : string }.

Definition PutObject {R} (c : S3) (Bucket Key Body_ : string)
  : Body R (option error) :=
  emit (EvPutObject Bucket Key Body_);;
  w ← world;
  if s3_reachable w
  then (λ w, (Next None, set_objects (<[(Bucket, Key) := Body_]> (objects w)) w))
  else pure (Some (ErrRequest "PutObject")).

Definition GetObject {R} (c : S3) (Bucket Key : string)
  : Body R (string * option error) :=
  emit (EvGetObject Bucket Key);;
  w ← world;
  if s3_reachable w
  then match objects w !! (Bucket, Key) with
       | Some body => pure (body, None)
       | None => pure ("", Some (ErrNoSuchKey Bucket Key))
       end
  else pure ("", Some (ErrRequest "GetObject")).

End s3.

(** ** Package [fmt] *)

Module fmt.

(** [Sprintf] for the [%s] verb. *)
Fixpoint Sprintf (format : string) (a : list string) : string :=
  match format with
  | String "%" (String "s" rest) =>
      match a with
      | x :: a' => x +:+ Sprintf rest a'
      | [] => "%!s(MISSING)" +:+ Sprintf rest []
      end
  | String c rest => String c (Sprintf rest a)
  | EmptyString => ""
  end.

End fmt.

Module strconv.

Definition Itoa (i : Z) : string := NilZero.string_of_int (Z.to_int i).

End strconv.

(** ** Package [archive/tar], at the level of archive entries *)

Module tar.

Record Header := mkHeader { Name : string; Mode : Z; Size : Z }.

Definition zeroHeader : Header := mkHeader "" 0 0.

(** A writer is the entries started so far, oldest first, each with the
    bytes written to it; the last one is the current entry. *)
Record Writer := mkWriter { entries : list (Header * string) }.

Definition NewWriter : Writer := mkWriter [].

(** Bytes still owed to the current entry. *)
Definition remaining (tw : Writer) : Z :=
  match last (entries tw) with
  | Some (hdr, data) => Size hdr - Z.of_nat (String.length data)
  | None => 0
  end.

Definition Flush (tw : Writer) : option error :=
  if 0 <? remaining tw
  then Some (ErrLib "archive/tar" "missed writing bytes")
  else None.

Definition WriteHeader (tw : Writer) (hdr : Header) : option error * Writer :=
  match Flush tw with
  | Some e => (Some e, tw)
  | None => (None, mkWriter (entries tw ++ [(hdr, "")]))
  end.

Definition append_current (tw : Writer) (b : string) : Writer :=
  match last (entries tw) with
  | Some (hdr, data) =>
      mkWriter (removelast (entries tw) ++ [(hdr, data +:+ b)])
  | None => tw
  end.

(** [Write] fills the current entry and reports [ErrWriteTooLong] for what
    does not fit. *)
Definition Write (tw : Writer) (b : string) : option error * Writer :=
  let nb := remaining tw in
  if nb <? Z.of_nat (String.length b)
  then (Some (ErrLib "archive/tar" "write too long"),
        append_current tw (String.substring 0 (Z.to_nat nb) b))
  else (None, append_current tw b).

Definition Close (tw : Writer) : option error := Flush tw.

(** What a reader finds in an archive: entries, each with the bytes its
    body yields and the error that ends the body early, if any; then the
    error that ends the archive ([EOF] for a complete one). *)
Inductive Stream :=
  | End (err : error)
  | Entry (hdr : Header) (data : string) (rerr : option error) (rest : Stream).

Record Reader := mkReader {
  body : string;            (* unread bytes of the current entry *)
  pending : option error;   (* the error that follows them *)
  rest : Stream;
}.

Definition NewReader (r : Stream) : Reader := mkReader "" None r.

Definition Next (tr : Reader) : (Header * option error) * Reader :=
  match pending tr with
  | Some e => ((zeroHeader, Some e), tr)
  | None =>
      match rest tr with
      | End e => ((zeroHeader, Some e), tr)
      | Entry hdr data rerr r => ((hdr, None), mkReader data rerr r)
      end
  end.

Definition streamOf (es : list (Header * string)) : Stream :=
  foldr (λ e s, Entry e.1 e.2 None s) (End EOF) es.

End tar.

#[global] Instance tarWriter_Writer : io.Writer tar.Writer :=
  λ R tw p, pure (tar.Write tw p).

#[global] Instance tarReader_Reader : io.Reader tar.Reader :=
  λ R tr,
    pure (tar.body tr, tar.pending tr,
          tar.mkReader "" (tar.pending tr) (tar.rest tr)).

Definition ioutil_ReadAll {R T} `{io.Reader T} (r : T)
  : Body R (string * option error * T) := io.drain r.

(** ** The program's types *)

Definition version : Z := 1.

Record Header := mkHeader { Version : Z }.

Record s3Bin := mkS3Bin { s3Bucket : string; s3Cli : s3.S3 }.

(** ** The rest of the Go runtime, as an interface *)

(** The functions whose results the program only passes on or compares:
    Unicode case mapping and trimming, the JSON decoder, and the bytes of a
    gzip-compressed tar archive. *)
Class Runtime := {
  (** [strings.ToLower] *)
  ToLower : string → string;
  (** [strings.TrimSpace] *)
  TrimSpace : string → string;
  (** [json.Unmarshal(data, &header)] for a zero [header] *)
  Unmarshal : string → Header * option error;
  (** what [gzip.NewWriter(buf)] under [tar.NewWriter] leaves in [buf] once
      both are closed *)
  archiveBytes : tar.Writer → string;
  (** [gzip.NewReader(body)], and what [tar.NewReader] reads from it *)
  openArchive : string → tar.Stream * option error;
}.

Module json.

Definition quote : string := String "034" "".

(** [json.Marshal(&Header{...})] *)
Definition Marshal (v : Header) : string * option error :=
  ("{" +:+ quote +:+ "version" +:+ quote +:+ ":"
       +:+ strconv.Itoa (Version v) +:+ "}", None).

End json.

Definition plain (c : ascii) : bool :=
  let n := N_of_ascii c in (97 <=? n)%N && (n <=? 122)%N.

Definition wellFramed (e : tar.Header * string) : Prop :=
  bytes.all plain (tar.Name e.1) = true ∧
  (0 < String.length (tar.Name e.1) ≤ 100)%nat ∧
  0 ≤ tar.Mode e.1 < 2 ^ 32 ∧
  tar.Size e.1 = Z.of_nat (String.length e.2).

(** What the program relies on. *)
Class RuntimeLaws (L : Runtime) : Prop := {
  ToLower_lower_hex :
    ∀ s, bytes.all hex.is_lower_hex s = true → ToLower s = s;
  Unmarshal_Marshal :
    ∀ v, - 2 ^ 63 ≤ Version v < 2 ^ 63 →
         Unmarshal (json.Marshal v).1 = (v, None);
  openArchive_archiveBytes :
    ∀ es, Forall wellFramed es →
          openArchive (archiveBytes (tar.mkWriter es)) = (tar.streamOf es, None);
}.

(** ** The program *)

Section program.
Context {L : Runtime}.

Definition orPanic {R A} (why : string) (o : option A) : Body R A :=
  match o with
  | Some a => pure a
  | None => panic why
  end.

(** [gzip.NewReader(res.Body)] *)
Definition gzip_NewReader (r : string) : tar.Stream * option error :=
  openArchive r.

(** [json.Unmarshal(headerBytes, &header)] *)
Definition json_Unmarshal (data : string) : Header * option error :=
  Unmarshal data.

Definition calcSha1 (path : string)
  : Body (string * option error) (string * option error) :=
  '(f, err) ← os.Open path;
  If (notnil err) (return_ ("", errors.Wrap err "failed to open file"));;
  (* defer f.Close() *)
  let hash := sha1_New in
  '(err, hash, _) ← io.Copy hash f;
  If (notnil err) (return_ ("", errors.Wrap err "failed to read file"));;
  return_ (ToLower (hex.EncodeToString (Hash_Sum hash)), None).

Definition storeKey (hash : string) : option string :=
  match bytes.slice hash 0 4, bytes.slice hash 4 8, bytes.slice hash 8 12,
        bytes.slice hash 12 16, bytes.slice hash 16 20 with
  | Some a, Some b, Some c, Some d, Some e =>
      Some (fmt.Sprintf "%s/%s/%s/%s/%s" [a; b; c; d; e])
  | _, _, _, _, _ => None
  end.

(** Lines 89-122 of [Put]: the envelope is built in [gzippedBuf]. *)
Definition Pack (headerBytes : string) (f : os.File) (fstat : os.FileInfo)
  : Body (option error) string :=
  (* gzippedBuf := &bytes.Buffer{}; gzipWriter := gzip.NewWriter(gzippedBuf) *)
  let tarWriter := tar.NewWriter in
  let '(err, tarWriter) :=
    tar.WriteHeader tarWriter
      (tar.mkHeader "header" 384 (* 0600 *)
                    (Z.of_nat (String.length headerBytes))) in
  If (notnil err)
     (return_ (errors.Wrap err "tarWriter.WriteHeader(header)"));;
  let '(err, tarWriter) := tar.Write tarWriter headerBytes in
  If (notnil err) (return_ (errors.Wrap err "tarWriter.Write(header)"));;
  let '(err, tarWriter) :=
    tar.WriteHeader tarWriter
      (tar.mkHeader "data" (os.Mode fstat) (os.Size fstat)) in
  If (notnil err) (return_ (errors.Wrap err "tarWriter.WriteHeader"));;
  '(err, tarWriter, _) ← io.Copy tarWriter f;
  If (notnil err) (return_ (errors.Wrap err "failed to read file"));;
  (* tarWriter.Close(); gzipWriter.Close() *)
  pure (archiveBytes tarWriter).

Definition Put (b : s3Bin) (path : string)
  : Body (option error) (option error) :=
  '(hash, err) ← call (calcSha1 path);
  If (notnil err) (return_ err);;
  '(f, err) ← os.Open path;
  If (notnil err) (return_ (errors.Wrap err "failed to open file"));;
  (* defer f.Close() *)
  '(fstat, err) ← os.Stat f;
  If (notnil err)
     (return_ (errors.Wrap err "failed to read file attributes"));;
  let header := mkHeader version in
  let '(headerBytes, err) := json.Marshal header in
  If (notnil err) (return_ (errors.Wrap err "json.Marshal(header)"));;
  gzippedBuf ← Pack headerBytes f fstat;
  key ← orPanic "slice bounds out of range" (storeKey hash);
  err ← s3.PutObject (s3Cli b) (s3Bucket b) key gzippedBuf;
  If (notnil err) (return_ (errors.Wrap err "failed to write file in s3"));;
  let hashFile := path +:+ ".sha1" in
  err ← ioutil.WriteFile hashFile hash 420; (* 0644 *)
  If (notnil err)
     (return_ (errors.Wrapf err "failed to create hash file %q" [hashFile]));;
  return_ None.

(** Lines 186-223 of [Get]: the envelope in [res.Body] is opened and
    checked, up to the header of its [data] entry. *)
Definition Unpack (resBody : string)
  : Body (option error) (Header * tar.Header * tar.Reader) :=
  let '(gzipReader, err) := gzip_NewReader resBody in
  If (notnil err) (return_ (errors.Wrap err "failed to create gzip reader"));;
  let tarReader := tar.NewReader gzipReader in
  let '((tarHdr, err), tarReader) := tar.Next tarReader in
  If (notnil err) (return_ (errors.Wrap err "tarReader.Next"));;
  If (negb (String.eqb (tar.Name tarHdr) "header"))
     (return_ (errors.New "tar does not have 'header'"));;
  '(headerBytes, err, tarReader) ← ioutil_ReadAll tarReader;
  If (notnil err) (return_ (errors.Wrap err "failed to read header"));;
  let '(header, err) := json_Unmarshal headerBytes in
  If (notnil err) (return_ (errors.Wrap err "json.Unmarshal"));;
  If (negb (Version header =? version))
     (return_ (errors.Wrapf err "unsupported version %d"
                            [strconv.Itoa (Version header)]));;
  let '((tarHdr, err), tarReader) := tar.Next tarReader in
  If (notnil err) (return_ (errors.Wrap err "tarReader.Next"));;
  If (negb (String.eqb (tar.Name tarHdr) "data"))
     (return_ (errors.Errorf "tar does not have 'data'" []));;
  pure (header, tarHdr, tarReader).

(** Lines 225-241 of [Get]: the [data] entry is written to the target
    file, which then gets the entry's mode. *)
Definition writeTarget (targetFile : string) (tarHdr : tar.Header)
    (tarReader : tar.Reader) : Body (option error) (option error) :=
  '(f, err) ← os.Create targetFile;
  If (notnil err)
     (return_ (errors.Wrapf err "failed to create target file %q"
                            [targetFile]));;
  (* defer f.Close() *)
  '(err, f, _) ← io.Copy f tarReader;
  If (notnil err) (return_ (errors.Wrapf err "failed to copy file" []));;
  err ← os.Chmod f (os.FileMode (tar.Mode tarHdr));
  If (notnil err) (return_ (errors.Wrap err "failed to set file mode"));;
  return_ None.

Definition Get (b : s3Bin) (sha1File : string)
  : Body (option error) (option error) :=
  let targetFile := strings.TrimSuffix sha1File ".sha1" in
  If (String.eqb targetFile sha1File)
     (return_ (errors.New "SHA1 file doesn't have .sha1 extension"));;
  '(sha1Bytes, err) ← ioutil.ReadFile sha1File;
  If (notnil err)
     (return_ (errors.Wrapf err "failed to read sha1 file %q" [sha1File]));;
  let sha1Str := ToLower (TrimSpace sha1Bytes) in
  If (negb (String.length sha1Str =? 40)%nat)
     (return_ (errors.Wrapf err "sha1 file %q is invalid" [sha1File]));;
  '(existingHash, err) ← call (calcSha1 targetFile);
  (if negb (notnil err) then
     if String.eqb existingHash sha1Str then
       log.Printf "%q exists and is up-to-date" [targetFile];;
       return_ None
     else
       log.Printf "Updating %q" [targetFile]
   else if os.IsNotExist (errors.Cause err) then
     log.Printf "Downloading %q" [targetFile]
   else
     return_ err);;
  key ← orPanic "slice bounds out of range" (storeKey sha1Str);
  '(res, err) ← s3.GetObject (s3Cli b) (s3Bucket b) key;
  If (notnil err)
     (return_ (errors.Wrapf err "failed to read %q from S3 bucket %q"
                            [key; s3Bucket b]));;
  (* defer res.Body.Close() *)
  '(header, tarHdr, tarReader) ← Unpack res;
  writeTarget targetFile tarHdr tarReader.

End program.

(** ** [filepath.Walk] *)

Module walk.

Definition WalkFunc : Type :=
  string → os.FileInfo → option error → Body (option error) (option error).

Definition isSkipDir (err : option error) : bool :=
  match err with Some SkipDir => true | _ => false end.

(** [walk] recursively descends [path]; [n] bounds the depth.  This is the
    function of Go 1.13 and later, which reads the names of a directory
    before it calls [walkFn] on it; earlier releases call [walkFn] first
    and read the names after it. *)
Fixpoint walk (n : nat) (path : string) (info : os.FileInfo)
    (walkFn : WalkFunc) : Body (option error) (option error) :=
  match n with
  | O => out_of_fuel
  | S n' =>
      if negb (os.IsDir info) then
        r ← call (walkFn path info None); return_ r
      else
        '(names, err) ← os.readDirNames path;
        err1 ← call (walkFn path info err);
        If (notnil err || notnil err1) (return_ err1);;
        forEach names (λ name,
          let filename := filepath.Join path name in
          '(fileInfo, err) ← os.Lstat filename;
          if notnil err then
            err ← call (walkFn filename fileInfo err);
            If (notnil err && negb (isSkipDir err)) (return_ err)
          else
            err ← call (walk n' filename fileInfo walkFn);
            If (notnil err)
               (If (negb (os.IsDir fileInfo) || negb (isSkipDir err))
                   (return_ err)));;
        return_ None
  end.

Definition Walk (n : nat) (root : string) (walkFn : WalkFunc)
  : Body (option error) (option error) :=
  '(info, err) ← os.Lstat root;
  err ← (if notnil err
         then call (walkFn root info err)
         else call (walk n root info walkFn));
  If (isSkipDir err) (return_ None);;
  return_ err.

End walk.

Section batch.
Context {L : Runtime}.

(** [GetDir]; [fuel] bounds the nesting of calls and of directories. *)
Fixpoint GetDir (fuel : nat) (b : s3Bin) (root : string)
  : Body (option error) (option error) :=
  match fuel with
  | O => out_of_fuel
  | S fuel' =>
      r ← call (walk.Walk fuel' root (λ path info err,
        If (notnil err) (return_ err);;
        If (os.IsDir info && negb (String.eqb path root)
              && negb (String.eqb (os.Name info) ".")
              && negb (String.eqb (os.Name info) ".."))
           (r ← call (GetDir fuel' b path); return_ r);;
        If (negb (String.eqb (filepath.Ext path) ".sha1")) (return_ None);;
        r ← call (Get b path); return_ r));
      return_ r
  end.

End batch.

(** ** A reference runtime

    An executable instance of [Runtime], used to run the program on
    concrete inputs: byte-wise ASCII case mapping and trimming (what Go
    does on ASCII text), a decoder for the JSON text [Marshal] produces,
    and a self-delimiting stand-in for the gzip and tar formats. *)

Module ref.

Definition lower (c : ascii) : ascii :=
  let n := N_of_ascii c in
  if ((65 <=? n) && (n <=? 90))%N then ascii_of_N (n + 32) else c.

Fixpoint ToLower (s : string) : string :=
  match s with
  | EmptyString => EmptyString
  | String c s' => String (lower c) (ToLower s')
  end.

(** ['\t', '\n', '\v', '\f', '\r', ' '] *)
Definition isSpace (c : ascii) : bool :=
  let n := N_of_ascii c in
  ((9 <=? n) && (n <=? 13) || (n =? 32))%N.

Fixpoint trimLeft (s : string) : string :=
  match s with
  | String c s' => if isSpace c then trimLeft s' else s
  | EmptyString => EmptyString
  end.

Fixpoint trimRight (s : string) : string :=
  match s with
  | String c s' =>
      match trimRight s' with
      | EmptyString => if isSpace c then EmptyString else String c EmptyString
      | r => String c r
      end
  | EmptyString => EmptyString
  end.

Definition TrimSpace (s : string) : string := trimRight (trimLeft s).

Fixpoint stripPrefix (p s : string) : option string :=
  match p, s with
  | EmptyString, _ => Some s
  | String a p', String b s' =>
      if Ascii.eqb a b then stripPrefix p' s' else None
  | _, _ => None
  end.

Fixpoint splitLast (s : string) : option (string * ascii) :=
  match s with
  | EmptyString => None
  | String c EmptyString => Some (EmptyString, c)
  | String c s' =>
      match splitLast s' with
      | Some (r, z) => Some (String c r, z)
      | None => None
      end
  end.

Definition syntaxError : option error :=
  Some (ErrLib "encoding/json" "cannot decode into Header").

Definition Unmarshal (data : string) : Header * option error :=
  match stripPrefix ("{" +:+ json.quote +:+ "version" +:+ json.quote +:+ ":")
                    data with
  | Some r =>
      match splitLast r with
      | Some (digits, "}"%char) =>
          match NilZero.int_of_string digits with
          | Some d => (mkHeader (Z.of_int d), None)
          | None => (mkHeader 0, syntaxError)
          end
      | _ => (mkHeader 0, syntaxError)
      end
  | None => (mkHeader 0, syntaxError)
  end.

(** A number [n] as [n] ones and a zero. *)
Fixpoint unary (n : nat) : string :=
  match n with
  | O => "0"
  | S n' => String "1" (unary n')
  end.

Fixpoint getNat (s : string) : option (nat * string) :=
  match s with
  | String "1" s' =>
      match getNat s' with
      | Some (n, r) => Some (S n, r)
      | None => None
      end
  | String "0" s' => Some (O, s')
  | _ => None
  end.

Fixpoint getBytes (n : nat) (s : string) : option (string * string) :=
  match n, s with
  | O, _ => Some (EmptyString, s)
  | S n', String c s' =>
      match getBytes n' s' with
      | Some (x, r) => Some (String c x, r)
      | None => None
      end
  | S _, EmptyString => None
  end.

Definition putEntry (e : tar.Header * string) : string :=
  unary (String.length (tar.Name e.1)) +:+ tar.Name e.1
    +:+ unary (Z.to_nat (tar.Mode e.1))
    +:+ unary (Z.to_nat (tar.Size e.1))
    +:+ unary (String.length e.2) +:+ e.2.

Fixpoint putEntries (es : list (tar.Header * string)) : string :=
  match es with
  | [] => ""
  | e :: es' => putEntry e +:+ putEntries es'
  end.

Definition archiveBytes (tw : tar.Writer) : string :=
  "GZ" +:+ putEntries (tar.entries tw).

(** One entry; a body shorter than announced is read as far as it goes. *)
Definition getEntry (s : string)
  : option (tar.Header * string * option error * string) :=
  match getNat s with
  | Some (n, s) =>
  match getBytes n s with
  | Some (name, s) =>
  match getNat s with
  | Some (mode, s) =>
  match getNat s with
  | Some (size, s) =>
  match getNat s with
  | Some (n, s) =>
  let hdr := tar.mkHeader name (Z.of_nat mode) (Z.of_nat size) in
  match getBytes n s with
  | Some (data, s) => Some (hdr, data, None, s)
  | None => Some (hdr, s, Some (ErrLib "io" "unexpected EOF"), "")
  end
  | None => None end
  | None => None end
  | None => None end
  | None => None end
  | None => None end.

Fixpoint getEntries (fuel : nat) (s : string) : tar.Stream :=
  match fuel with
  | O => tar.End (ErrLib "archive/tar" "unexpected EOF")
  | S fuel' =>
      match s with
      | EmptyString => tar.End EOF
      | _ =>
          match getEntry s with
          | Some (hdr, data, rerr, r) =>
              tar.Entry hdr data rerr (getEntries fuel' r)
          | None => tar.End (ErrLib "archive/tar" "invalid tar header")
          end
      end
  end.

Definition openArchive (s : string) : tar.Stream * option error :=
  match stripPrefix "GZ" s with
  | Some r => (getEntries (S (String.length r)) r, None)
  | None => (tar.End EOF, Some (ErrLib "compress/gzip" "invalid header"))
  end.

Definition runtime : Runtime :=
  Build_Runtime ToLower TrimSpace Unmarshal archiveBytes openArchive.

End ref.

(** Test fixtures. *)
Definition bin : s3Bin := mkS3Bin "bucket" (s3.New "us-east-1").

Definition world0 (files : list (string * fnode)) : World :=
  mkWorld (list_to_map files) 18 (* 022 *) ∅ true [].

Definition outcome {R A} (r : step R A * World) : step R A := r.1.
Definition after {R A} (r : step R A * World) : World := r.2.


(** ** Notions used in the statements *)

(** The world after further events that change no file and no object. *)
Definition extend (w : World) (evs : list event) : World :=
  mkWorld (fs w) (umask w) (objects w) (s3_reachable w) (trace w ++ evs).

(** What [Pack] leaves in the tar writer for a regular file. *)
Definition envelope (headerBytes data : string) (mode : Z)
  : list (tar.Header * string) :=
  [(tar.mkHeader "header" 384 (Z.of_nat (String.length headerBytes)),
    headerBytes);
   (tar.mkHeader "data" mode (Z.of_nat (String.length data)), data)].

(** A body that never panics. *)
Definition safe {R A} (m : Body R A) : Prop :=
  ∀ w why, (m w).1 ≠ Panic why.

(** A body that ends the same way in every world and leaves it alone. *)
Definition stateless {R A} (m : Body R A) : Prop :=
  ∀ w w', m w' = ((m w).1, w').

Section notions.
Context {L : Runtime}.

(** The digest [calcSha1] computes for a file with these bytes. *)
Definition digest (data : string) : string :=
  ToLower (hex.EncodeToString (sha1.Sum data)).

(** The target is absent, or is a file with another digest; [evs] is what
    [Get] does to find that out. *)
Inductive NeedsFetch (w : World) (targetFile sha1Str : string)
  : list event → Prop :=
  | fetch_absent :
      fs w !! targetFile = None →
      NeedsFetch w targetFile sha1Str
        [EvOpen targetFile; EvLog (Msg "Downloading %q" [targetFile])]
  | fetch_stale data m :
      fs w !! targetFile = Some (RegFile data m) →
      digest data ≠ sha1Str →
      NeedsFetch w targetFile sha1Str
        [EvOpen targetFile; EvRead targetFile;
         EvLog (Msg "Updating %q" [targetFile])].


(** The envelope [Put] uploads for a file with these bytes and mode. *)
Definition blobOf (data : string) (mode : Z) : string :=
  archiveBytes
    (tar.mkWriter (envelope (json.Marshal (mkHeader version)).1 data mode)).

(** What [Put] does up to the request to the bucket. *)
Definition putEvents (b : s3Bin) (path key data : string) (mode : Z) : list event :=
  [EvOpen path; EvRead path; EvOpen path; EvStat path; EvRead path;
   EvPutObject (s3Bucket b) key (blobOf data mode)].

End notions.

(** ** Worlds to run the program on *)

Definition helloDigest : string := "c65f99f8c5376adadddc46d5cbcf5762f9e55eb7".
Definition helloKey : string := "c65f/99f8/c537/6ada/dddc".
Definition dirMode : Z := os.ModeDir + 493. (* drwxr-xr-x *)

(** [app.bin], mode 0755, holding [HELLO]. *)
Definition w_hello : World :=
  world0 [(".", Directory dirMode); ("app.bin", RegFile "HELLO" 493)].

(** [app.bin] and its pointer file. *)
Definition w_synced : World :=
  world0 [(".", Directory dirMode); ("app.bin", RegFile "HELLO" 493);
          ("app.bin.sha1", RegFile helloDigest 420)].

(** A pointer file that does not hold a digest. *)
Definition w_badptr : World :=
  world0 [(".", Directory dirMode); ("a.sha1", RegFile "abc" 420)].

(** A pointer file without its target, and [blob] under its key. *)
Definition w_missing (blob : string) : World :=
  mkWorld (list_to_map [(".", Directory dirMode);
                        ("app.bin.sha1", RegFile helloDigest 420)])
          18 {[ ("bucket", helloKey) := blob ]} true [].

(** An envelope like [Put]'s, with version 2 in its header. *)
Definition blobV2 : string :=
  ref.archiveBytes
    (tar.mkWriter (envelope (json.Marshal (mkHeader 2)).1 "HELLO" 493)).

(** One pointer file, up to date, in a subdirectory of the root. *)
Definition w_tree : World :=
  world0 [("r", Directory dirMode); ("r/d", Directory dirMode);
          ("r/d/f", RegFile "HELLO" 420);
          ("r/d/f.sha1", RegFile helloDigest 420);
          ("r/g.txt", RegFile "x" 420)].

(** One pointer file two directories below the root. *)
Definition w_deep : World :=
  world0 [("r", Directory dirMode); ("r/a", Directory dirMode);
          ("r/a/b", Directory dirMode);
          ("r/a/b/f", RegFile "HELLO" 420);
          ("r/a/b/f.sha1", RegFile helloDigest 420)].

(** Two pointer files without targets, and an empty bucket. *)
Definition w_orphans : World :=
  world0 [("r", Directory dirMode);
          ("r/a.sha1", RegFile helloDigest 420);
          ("r/b.sha1", RegFile helloDigest 420);
          ("r/c.txt", RegFile "x" 420)].

(** [Put]'s envelope for [app.bin], and the same cut 3 bytes short. *)
Definition blobHello : string :=
  ref.archiveBytes
    (tar.mkWriter (envelope (json.Marshal (mkHeader version)).1 "HELLO" 493)).

Definition blobCut : string :=
  String.substring 0 (String.length blobHello - 3) blobHello.

(** The pointer files read, in order: [Get] reads its pointer file once,
    and nothing else in the program calls [ioutil.ReadFile]. *)
Definition pointerReads (t : list event) : list string :=
  omap (λ e, match e with EvReadFile name => Some name | _ => None end) t.


(** ** [newS3Bin] and [main] *)

(** The flags after [flag.Parse()]. *)
Record Flags := mkFlags {
  flagS3Bucket : string;
  flagAWSRegion : string;
  flagGet : string;
  flagGetDir : string;
  flagPut : string;
}.

Definition nl : string := String "010" "".

(** [fmt.Fprintf(os.Stderr, text)], [log.Println(text)] and
    [log.Fatal(err)] with [log.SetFlags(0)]: a line on standard error (the
    text of an error is not rendered); [os.Exit(code)] ends [main] with
    that status. *)
Definition fmt_Fprintf_Stderr {R} (text : string) : Body R unit :=
  emit (EvLog (Msg text [])).

Definition log_Println {R} (text : string) : Body R unit :=
  emit (EvLog (Msg (text +:+ nl) [])).

Definition os_Exit {A} (code : Z) : Body Z A := return_ code.

Definition log_Fatal {A} (err : option error) : Body Z A :=
  emit (EvLog (Msg ("%v" +:+ nl) []));; os_Exit 1.

Definition usageText : list string :=
  ["s3bin [options] -get <file.sha1>" +:+ nl;
   "s3bin [options] -get-dir <directory>" +:+ nl;
   "s3bin [options] -put <file>" +:+ nl;
   nl;
   "s3bin downloads or uploads binary files from/to a AWS S3 bucket. " +:+ nl;
   nl;
   "With the -put flag, s3bin uploads the file to the S3 bucket, and creates a "
     +:+ nl;
   "file with the same name plus the .sha1 extension. This file will contain the "
     +:+ nl;
   "SHA1 hash of the uploaded binary." +:+ nl;
   nl;
   "With the -get flag, s3bin takes the sha1 file created by -put and downloads "
     +:+ nl;
   "the corresponding file from S3 iff the corresponding local file dos not exist "
     +:+ nl;
   "or its contents do not match the provided hash." +:+ nl;
   nl].

(** [flag.Usage] *)
Definition flag_Usage {A} : Body Z A :=
  forEach usageText fmt_Fprintf_Stderr;; os_Exit 1.

(** [newS3Bin]; [sessErr] is the error [session.NewSession()] returns. *)
Definition newS3Bin (sessErr : option error) (region bucket : string)
  : s3Bin * option error :=
  if notnil sessErr
  then (mkS3Bin "" (s3.New ""),
        errors.Wrapf sessErr "failed to create AWS session" [])
  else (mkS3Bin bucket (s3.New region), None).

Section entry.
Context {L : Runtime}.

(** [main] from [flag.Parse()] on; the value returned is the exit status.
    [fuel] is [GetDir]'s. *)
Definition main (fuel : nat) (sessErr : option error) (fl : Flags)
  : Body Z Z :=
  (* log.SetFlags(0) *)
  If (String.eqb (flagS3Bucket fl) "")
     (log_Println "-s3-bucket is required";; flag_Usage);;
  If (String.eqb (flagAWSRegion fl) "")
     (log_Println "-aws-region is required";; flag_Usage);;
  If (String.eqb (flagGet fl) "" && String.eqb (flagGetDir fl) ""
        && String.eqb (flagPut fl) "")
     flag_Usage;;
  let '(s3Bin, err) := newS3Bin sessErr (flagAWSRegion fl) (flagS3Bucket fl) in
  If (notnil err) (log_Fatal err);;
  (if negb (String.eqb (flagGet fl) "") then
     err ← call (Get s3Bin (flagGet fl));
     If (notnil err) (log_Fatal err)
   else if negb (String.eqb (flagGetDir fl) "") then
     err ← call (GetDir fuel s3Bin (flagGetDir fl));
     If (notnil err) (log_Fatal err)
   else if negb (String.eqb (flagPut fl) "") then
     err ← call (Put s3Bin (flagPut fl));
     If (notnil err) (log_Fatal err)
   else pure tt);;
  return_ 0.

(** What [GetDir] amounts to on a directory that holds files only: each
    entry is looked at, in sorted order, and [Get] runs on those with the
    extension [.sha1] until one fails. *)
Definition getListed (b : s3Bin) (root name : string)
  : Body (option error) unit :=
  let filename := filepath.Join root name in
  os.Lstat filename;;
  If (String.eqb (filepath.Ext filename) ".sha1")
     (err ← call (Get b filename); If (notnil err) (return_ err)).

Definition getFlat (b : s3Bin) (root : string)
  : Body (option error) (option error) :=
  os.Lstat root;;
  '(names, _) ← os.readDirNames root;
  forEach names (getListed b root);;
  return_ None.

End entry.

(** ** What a body may change *)

(** From [w] to [w']: the settings are the same; files outside [F] are the
    same, and no file has vanished or turned into a directory, nor a
    directory into a file; objects outside [O] are the same and none has
    vanished; the trace has only grown. *)
Definition evolves (F : string → Prop) (O : string * string → Prop)
    (w w' : World) : Prop :=
  umask w' = umask w ∧
  s3_reachable w' = s3_reachable w ∧
  (∀ p, ¬ F p → fs w' !! p = fs w !! p) ∧
  (∀ p d m, fs w !! p = Some (RegFile d m) →
            ∃ d' m', fs w' !! p = Some (RegFile d' m')) ∧
  (∀ p m, fs w !! p = Some (Directory m) →
          ∃ m', fs w' !! p = Some (Directory m')) ∧
  (∀ k, ¬ O k → objects w' !! k = objects w !! k) ∧
  (∀ k v, objects w !! k = Some v → is_Some (objects w' !! k)) ∧
  ∃ evs, trace w' = trace w ++ evs.

(** A body that changes the world within [rel], does not panic, runs out
    of fuel only if [U], falls through only with values in [N] and returns
    only values in [T]. *)
Definition spec {R A} (rel : World → World → Prop) (U : Prop)
    (N : A → Prop) (T : R → Prop) (m : Body R A) : Prop :=
  ∀ w,
    rel w (m w).2 ∧
    match (m w).1 with
    | Next a => N a
    | Return r => T r
    | Panic _ => False
    | OutOfFuel => U
    end.

(** An error of this program's own making: [nil], or built by the
    [errors] package. *)
Definition ownError (err : option error) : Prop :=
  match err with
  | None | Some (Fundamental _) | Some (WithMessage _ _) => True
  | _ => False
  end.


(** Files only, next to the root of the tree. *)
Definition w_flat : World :=
  world0 [("r", Directory dirMode);
          ("r/a", RegFile "HELLO" 420);
          ("r/a.sha1", RegFile helloDigest 420);
          ("r/b.txt", RegFile "x" 420)].

(** A valid pointer file beside a directory that has its target's name. *)
Definition w_dirTarget : World :=
  world0 [(".", Directory dirMode); ("d", Directory dirMode);
          ("d.sha1", RegFile helloDigest 420)].

(** [w_hello] with the bucket out of reach. *)
Definition w_offline : World :=
  mkWorld (list_to_map [(".", Directory dirMode);
                        ("app.bin", RegFile "HELLO" 493)])
          18 ∅ false [].

(** Command lines. *)
Definition flagsGet : Flags := mkFlags "bucket" "us-east-1" "app.bin.sha1" "" "".
Definition flagsAll : Flags :=
  mkFlags "bucket" "us-east-1" "app.bin.sha1" "r" "app.bin".
Definition flagsNoBucket : Flags := mkFlags "" "us-east-1" "app.bin.sha1" "" "".

(** [strings.TrimSpace] leaves text without white space alone; used for
    the digests [Put] writes. *)
Definition TrimSpaceKeepsHex (L : Runtime) : Prop :=
  ∀ s, bytes.all hex.is_lower_hex s = true → TrimSpace s = s.

(** * Properties *)

(** ** [crypto/sha1] on the standard test vectors *)

Example sha1_empty :
  hex.EncodeToString (sha1.Sum "") = "da39a3ee5e6b4b0d3255bfef95601890afd80709".
Proof. vm_compute. reflexivity. Qed.

Example sha1_abc :
  hex.EncodeToString (sha1.Sum "abc") = "a9993e364706816aba3e25717850c26c9cd0d89d".
Proof. vm_compute. reflexivity. Qed.

Example sha1_HELLO :
  hex.EncodeToString (sha1.Sum "HELLO") = "c65f99f8c5376adadddc46d5cbcf5762f9e55eb7".
Proof. vm_compute. reflexivity. Qed.

Example sha1_two_blocks :
  hex.EncodeToString
    (sha1.Sum "abcdbcdecdefdefgefghfghighijhijkijkljklmklmnlmnomnopnopq")
  = "84983e441c3bd26ebaae4aa1f95129e5e54670f1".
Proof. vm_compute. reflexivity. Qed.


(** ** Byte strings *)

Lemma length_app (s t : string) :
  String.length (s +:+ t) = (String.length s + String.length t)%nat.
Proof. induction s as [|c s IH]; simpl; [done | by rewrite IH]. Qed.

Lemma app_assoc_s (s t u : string) : (s +:+ t) +:+ u = s +:+ t +:+ u.
Proof. induction s as [|c s IH]; simpl; [done | by rewrite IH]. Qed.

Lemma app_empty_r (s : string) : s +:+ "" = s.
Proof. induction s as [|c s IH]; simpl; [done | by rewrite IH]. Qed.

Lemma length_substring (s : string) (n m : nat) :
  (n + m ≤ String.length s)%nat → String.length (String.substring n m s) = m.
Proof.
  revert n m. induction s as [|c s IH]; intros [|n] [|m]; simpl; intros H;
    try done; try lia.
  - f_equal. apply (IH 0%nat). simpl. lia.
  - apply (IH n 0%nat). lia.
  - apply IH. lia.
Qed.

Lemma substring_split (s : string) (n a b : nat) :
  String.substring n (a + b) s
  = String.substring n a s +:+ String.substring (n + a) b s.
Proof.
  revert n a. induction s as [|c s IH]; intros [|n] [|a]; simpl; try done.
  - f_equal. apply (IH 0%nat a).
  - apply (IH n 0%nat).
  - apply (IH n (S a)).
Qed.

Lemma app_inj_length (a a' r r' : string) :
  String.length a = String.length a' → a +:+ r = a' +:+ r' → a = a' ∧ r = r'.
Proof.
  revert a'. induction a as [|c a IH]; intros [|c' a']; simpl; try done.
  intros [= Hlen] [= -> Heq]. destruct (IH _ Hlen Heq) as [-> ->]. done.
Qed.

Lemma slice_Some (s : string) (i j : nat) :
  (i ≤ j ≤ String.length s)%nat →
  bytes.slice s i j = Some (String.substring i (j - i) s).
Proof. intros H. unfold bytes.slice. by rewrite decide_True. Qed.

Lemma length_EncodeToString (s : string) :
  String.length (hex.EncodeToString s) = (2 * String.length s)%nat.
Proof. induction s as [|c s IH]; simpl; [done | rewrite IH; lia]. Qed.

Lemma lower_hex_digits (c : ascii) :
  hex.is_lower_hex (hex.digit (N.shiftr (N_of_ascii c) 4)) = true ∧
  hex.is_lower_hex (hex.digit (N.land (N_of_ascii c) 15)) = true.
Proof. destruct c as [[] [] [] [] [] [] [] []]; done. Qed.

Lemma lower_hex_EncodeToString (s : string) :
  bytes.all hex.is_lower_hex (hex.EncodeToString s) = true.
Proof.
  induction s as [|c s IH]; simpl; [done |].
  destruct (lower_hex_digits c) as [-> ->]. by rewrite IH.
Qed.

Lemma length_sha1_Sum (data : string) : String.length (sha1.Sum data) = 20%nat.
Proof. unfold sha1.Sum. by destruct (sha1.checkSum _). Qed.

Lemma app_neq (s t : string) : t ≠ "" → s +:+ t ≠ s.
Proof.
  intros Ht Heq. apply (f_equal String.length) in Heq.
  rewrite length_app in Heq. destruct t; [done | simpl in Heq; lia].
Qed.

(** ** [strings.TrimSuffix] *)

Lemma TrimSuffix_no_suffix (s suffix : string) :
  strings.HasSuffix s suffix = false → strings.TrimSuffix s suffix = s.
Proof. intros H. unfold strings.TrimSuffix. by rewrite H. Qed.

Lemma TrimSuffix_length (s suffix : string) :
  strings.HasSuffix s suffix = true →
  String.length (strings.TrimSuffix s suffix)
  = (String.length s - String.length suffix)%nat.
Proof.
  intros H. unfold strings.TrimSuffix. rewrite H.
  apply length_substring. lia.
Qed.

Lemma TrimSuffix_shorter (s suffix : string) :
  strings.HasSuffix s suffix = true → suffix ≠ "" →
  String.eqb (strings.TrimSuffix s suffix) s = false.
Proof.
  intros H Hne. apply String.eqb_neq. intros Heq.
  pose proof (TrimSuffix_length _ _ H) as Hlen. rewrite Heq in Hlen.
  unfold strings.HasSuffix in H. apply andb_true_iff in H as [H _].
  apply bool_decide_eq_true in H.
  destruct suffix; [done | simpl in *; lia].
Qed.

Lemma HasSuffix_app (s suffix : string) :
  strings.HasSuffix (s +:+ suffix) suffix = true.
Proof.
  unfold strings.HasSuffix. rewrite length_app.
  apply andb_true_iff. split; [apply bool_decide_eq_true; lia |].
  apply String.eqb_eq.
  replace (String.length s + String.length suffix - String.length suffix)%nat
    with (String.length s) by lia.
  induction s as [|c s IH]; simpl; [| done].
  induction suffix as [|c t IH]; simpl; [done | by rewrite IH].
Qed.

Lemma TrimSuffix_app (s suffix : string) :
  strings.TrimSuffix (s +:+ suffix) suffix = s.
Proof.
  unfold strings.TrimSuffix. rewrite HasSuffix_app, length_app.
  replace (String.length s + String.length suffix - String.length suffix)%nat
    with (String.length s) by lia.
  induction s as [|c s IH]; simpl; [by destruct suffix | by rewrite IH].
Qed.

(** ** [storeKey] *)

Lemma storeKey_Some (hash : string) :
  (20 ≤ String.length hash)%nat →
  storeKey hash
  = Some (String.substring 0 4 hash +:+ "/" +:+ String.substring 4 4 hash
          +:+ "/" +:+ String.substring 8 4 hash
          +:+ "/" +:+ String.substring 12 4 hash
          +:+ "/" +:+ String.substring 16 4 hash).
Proof.
  intros H. unfold storeKey. rewrite !slice_Some by lia. simpl.
  by rewrite app_empty_r.
Qed.

Lemma storeKey_None (hash : string) :
  storeKey hash = None → (String.length hash < 20)%nat.
Proof.
  intros H. destruct (decide (20 ≤ String.length hash)%nat) as [Hl|]; [| lia].
  by rewrite storeKey_Some in H.
Qed.

Lemma prefix20 (hash : string) :
  String.substring 0 20 hash
  = String.substring 0 4 hash +:+ String.substring 4 4 hash
    +:+ String.substring 8 4 hash +:+ String.substring 12 4 hash
    +:+ String.substring 16 4 hash.
Proof.
  etrans; [exact (substring_split hash 0 4 16) | f_equal].
  etrans; [exact (substring_split hash 4 4 12) | f_equal].
  etrans; [exact (substring_split hash 8 4 8) | f_equal].
  exact (substring_split hash 12 4 4).
Qed.

Lemma all_substring (p : ascii → bool) (s : string) (n m : nat) :
  bytes.all p s = true → bytes.all p (String.substring n m s) = true.
Proof.
  revert n m. induction s as [|c s IH]; intros [|n] [|m]; simpl; try done.
  - intros [-> H]%andb_true_iff. simpl. by apply IH.
  - intros [_ H]%andb_true_iff. by apply IH.
  - intros [_ H]%andb_true_iff. by apply IH.
Qed.

(** C6. [storeKey] is a function of the digest alone; it yields the
    digest's first 20 characters as 5 segments of 4 characters, in order,
    joined by [/] (hex characters when the digest's are), and two digests
    whose first 20 characters differ get different keys. *)
Theorem storeKey_segments_injective (hash : string) :
  (20 ≤ String.length hash)%nat →
  ∃ a b c d e : string,
    storeKey hash = Some (a +:+ "/" +:+ b +:+ "/" +:+ c +:+ "/" +:+ d
                            +:+ "/" +:+ e) ∧
    Forall (λ seg, String.length seg = 4%nat) [a; b; c; d; e] ∧
    a +:+ b +:+ c +:+ d +:+ e = String.substring 0 20 hash ∧
    (bytes.all hex.is_lower_hex hash = true →
     Forall (λ seg, bytes.all hex.is_lower_hex seg = true) [a; b; c; d; e]) ∧
    ∀ hash' : string,
      (20 ≤ String.length hash')%nat →
      String.substring 0 20 hash ≠ String.substring 0 20 hash' →
      storeKey hash ≠ storeKey hash'.
Proof.
  intros Hlen.
  exists (String.substring 0 4 hash), (String.substring 4 4 hash),
    (String.substring 8 4 hash), (String.substring 12 4 hash),
    (String.substring 16 4 hash).
  split; [by apply storeKey_Some |].
  split; [repeat constructor; apply length_substring; lia |].
  split; [by rewrite prefix20 |].
  split; [intros Hhex; repeat constructor; by apply all_substring |].
  intros hash' Hlen' Hne Heq. apply Hne.
  rewrite !storeKey_Some in Heq by done. injection Heq as Heq.
  rewrite !prefix20.
  repeat
    (apply app_inj_length in Heq as [-> Heq];
     [| rewrite !length_substring by lia; done];
     try (simpl in Heq; injection Heq as Heq)).
  by rewrite Heq.
Qed.

Lemma storeKey_segments_injective_witness :
  ∃ a b c d e : string,
    storeKey "c65f99f8c5376adadddc46d5cbcf5762f9e55eb7"
    = Some (a +:+ "/" +:+ b +:+ "/" +:+ c +:+ "/" +:+ d +:+ "/" +:+ e) ∧
    Forall (λ seg, String.length seg = 4%nat) [a; b; c; d; e] ∧
    a +:+ b +:+ c +:+ d +:+ e
    = String.substring 0 20 "c65f99f8c5376adadddc46d5cbcf5762f9e55eb7" ∧
    (bytes.all hex.is_lower_hex "c65f99f8c5376adadddc46d5cbcf5762f9e55eb7"
     = true →
     Forall (λ seg, bytes.all hex.is_lower_hex seg = true) [a; b; c; d; e]) ∧
    ∀ hash' : string,
      (20 ≤ String.length hash')%nat →
      String.substring 0 20 "c65f99f8c5376adadddc46d5cbcf5762f9e55eb7"
      ≠ String.substring 0 20 hash' →
      storeKey "c65f99f8c5376adadddc46d5cbcf5762f9e55eb7" ≠ storeKey hash'.
Proof.
  apply (storeKey_segments_injective
           "c65f99f8c5376adadddc46d5cbcf5762f9e55eb7").
  simpl. lia.
Defined.

(** ** Running function bodies *)

#[local] Arguments sha1.Sum : simpl never.
#[local] Arguments hex.EncodeToString : simpl never.
#[local] Arguments strings.TrimSuffix : simpl never.
#[local] Arguments storeKey : simpl never.

Ltac run :=
  unfold bind, If, call, pure, return_, emit, world, update_fs, orPanic,
    panic; simpl.

Lemma record_extend (w : World) (e : event) : record e w = extend w [e].
Proof. done. Qed.

Lemma extend_extend (w : World) (xs ys : list event) :
  extend (extend w xs) ys = extend w (xs ++ ys).
Proof. unfold extend. simpl. by rewrite <- app_assoc. Qed.

Ltac worlds := rewrite ?record_extend, ?extend_extend; simpl.

Section get.
Context {L : Runtime}.
Implicit Types (b : s3Bin) (w : World).

(** C7. [Get] on a path that does not end in [.sha1] returns an error at
    once and leaves the world as it was: nothing is read or written in the
    file system and the bucket is not contacted (the trace gets no event). *)
Theorem Get_without_suffix_fails b (sha1File : string) w :
  strings.HasSuffix sha1File ".sha1" = false →
  Get b sha1File w
  = (Return (errors.New "SHA1 file doesn't have .sha1 extension"), w).
Proof.
  intros H. unfold Get. rewrite (TrimSuffix_no_suffix _ _ H).
  rewrite String.eqb_refl. done.
Qed.

(** C3. [Get] on a pointer file whose trimmed, lowercased content is not
    40 bytes long reads the pointer file, touches nothing else and returns
    [nil], not an error: the [err] that line 156 wraps is the [nil] that
    [ioutil.ReadFile] returned, and [errors.Wrapf(nil, ...)] is [nil]. *)
Theorem Get_invalid_pointer_returns_nil b (sha1File content : string)
    (m : Z) w :
  strings.HasSuffix sha1File ".sha1" = true →
  fs w !! sha1File = Some (RegFile content m) →
  String.length (ToLower (TrimSpace content)) ≠ 40%nat →
  Get b sha1File w = (Return None, extend w [EvReadFile sha1File]).
Proof.
  intros Hsuf Hptr Hlen. unfold Get.
  rewrite (TrimSuffix_shorter _ _ Hsuf) by done.
  unfold ioutil.ReadFile. run. rewrite Hptr. simpl.
  apply Nat.eqb_neq in Hlen. rewrite Hlen. by worlds.
Qed.

(** C5. [Get] on a pointer file whose sibling exists and has the pointer's
    digest returns [nil], requests nothing from the bucket and leaves every
    file (the target and the pointer among them) as it was. *)
Theorem Get_up_to_date_is_noop b (sha1File content data : string)
    (m m' : Z) w :
  strings.HasSuffix sha1File ".sha1" = true →
  fs w !! sha1File = Some (RegFile content m) →
  fs w !! strings.TrimSuffix sha1File ".sha1" = Some (RegFile data m') →
  ToLower (hex.EncodeToString (sha1.Sum data)) = ToLower (TrimSpace content) →
  ∃ evs : list event,
    Get b sha1File w = (Return None, extend w evs) ∧
    Forall (λ e, is_s3_event e = false) evs ∧
    fs (extend w evs) = fs w ∧ objects (extend w evs) = objects w.
Proof.
  intros Hsuf Hptr Htgt Hsame.
  destruct (decide (String.length (ToLower (TrimSpace content)) = 40%nat))
    as [Hlen|Hlen].
  - exists [EvReadFile sha1File;
            EvOpen (strings.TrimSuffix sha1File ".sha1");
            EvRead (strings.TrimSuffix sha1File ".sha1");
            EvLog (Msg "%q exists and is up-to-date"
                       [strings.TrimSuffix sha1File ".sha1"])].
    split; [| by repeat constructor].
    unfold Get. rewrite (TrimSuffix_shorter _ _ Hsuf) by done.
    unfold ioutil.ReadFile, calcSha1, os.Open, io.Copy, io.drain, io.write,
      File_Reader, Hash_Writer, log.Printf, Hash_Sum.
    run. rewrite Hptr. simpl. rewrite Hlen. simpl. rewrite Htgt. simpl. rewrite Htgt. simpl.
    rewrite Hsame, String.eqb_refl. by worlds.
  - exists [EvReadFile sha1File]. split; [| by repeat constructor].
    unfold Get. rewrite (TrimSuffix_shorter _ _ Hsuf) by done.
    unfold ioutil.ReadFile. run. rewrite Hptr. simpl.
    apply Nat.eqb_neq in Hlen. rewrite Hlen. by worlds.
Qed.

End get.

(** ** The reference runtime satisfies the laws *)

Lemma ref_lower_hex (c : ascii) :
  hex.is_lower_hex c = true → ref.lower c = c.
Proof. destruct c as [[] [] [] [] [] [] [] []]; done. Qed.

Lemma ref_ToLower_lower_hex (s : string) :
  bytes.all hex.is_lower_hex s = true → ref.ToLower s = s.
Proof.
  induction s as [|c s IH]; simpl; [done |].
  intros [Hc Hs]%andb_true_iff. by rewrite ref_lower_hex, IH.
Qed.

Lemma splitLast_app (s : string) (c : ascii) :
  ref.splitLast (s +:+ String c "") = Some (s, c).
Proof.
  induction s as [|a s IH]; simpl; [done |]. rewrite IH.
  by destruct s.
Qed.

Lemma to_int_proper (v : Z) :
  Z.to_int v ≠ Decimal.Pos Decimal.Nil ∧ Z.to_int v ≠ Decimal.Neg Decimal.Nil.
Proof.
  destruct v as [|p|p]; simpl; split; try done;
    intros [= H]; by apply DecimalPos.Unsigned.to_uint_nonnil in H.
Qed.

Lemma ref_Unmarshal_Marshal (v : Header) :
  ref.Unmarshal (json.Marshal v).1 = (v, None).
Proof.
  destruct v as [n]. unfold ref.Unmarshal, json.Marshal, strconv.Itoa. simpl.
  rewrite splitLast_app.
  destruct (to_int_proper n) as [H1 H2].
  rewrite NilZero.isi by done. by rewrite DecimalZ.of_to.
Qed.

Lemma getNat_unary (n : nat) (r : string) :
  ref.getNat (ref.unary n +:+ r) = Some (n, r).
Proof. induction n as [|n IH]; simpl; [done | by rewrite IH]. Qed.

Lemma getBytes_app (x r : string) :
  ref.getBytes (String.length x) (x +:+ r) = Some (x, r).
Proof. induction x as [|c x IH]; simpl; [done | by rewrite IH]. Qed.

Lemma getEntry_putEntry (e : tar.Header * string) (r : string) :
  wellFramed e →
  ref.getEntry (ref.putEntry e +:+ r) = Some (e.1, e.2, None, r).
Proof.
  destruct e as [[name mode size] data]. intros (_ & _ & Hmode & Hsize).
  simpl in *. unfold ref.getEntry, ref.putEntry. simpl.
  rewrite !app_assoc_s.
  rewrite getNat_unary, getBytes_app, !getNat_unary, getBytes_app.
  rewrite !Z2Nat.id by lia. done.
Qed.

Lemma putEntry_cons (e : tar.Header * string) (r : string) :
  ∃ c s, ref.putEntry e +:+ r = String c s.
Proof.
  unfold ref.putEntry.
  destruct (String.length (tar.Name e.1)); simpl; eauto.
Qed.

Lemma getEntries_putEntries (es : list (tar.Header * string)) (fuel : nat) :
  Forall wellFramed es → (length es < fuel)%nat →
  ref.getEntries fuel (ref.putEntries es) = tar.streamOf es.
Proof.
  revert fuel. induction es as [|e es IH]; intros [|fuel] Hwf Hfuel;
    simpl in *; try lia; [done |].
  apply Forall_cons in Hwf as [He Hes].
  destruct (putEntry_cons e (ref.putEntries es)) as (c & s & Hs).
  rewrite Hs, <- Hs. rewrite getEntry_putEntry by done.
  rewrite IH by (done || lia). done.
Qed.

Lemma putEntries_length (es : list (tar.Header * string)) :
  (length es ≤ String.length (ref.putEntries es))%nat.
Proof.
  induction es as [|e es IH]; simpl; [done |].
  destruct (putEntry_cons e (ref.putEntries es)) as (c & s & Hs).
  rewrite length_app.
  assert (0 < String.length (ref.putEntry e))%nat; [| lia].
  unfold ref.putEntry. destruct (String.length (tar.Name e.1)); simpl; lia.
Qed.

Lemma ref_runtime_laws : RuntimeLaws ref.runtime.
Proof.
  split.
  - apply ref_ToLower_lower_hex.
  - intros v _. apply ref_Unmarshal_Marshal.
  - intros es Hwf.
    change (ref.openArchive ("GZ" +:+ ref.putEntries es)
            = (tar.streamOf es, None)).
    unfold ref.openArchive.
    change (ref.stripPrefix "GZ" ("GZ" +:+ ref.putEntries es))
      with (Some (ref.putEntries es)).
    cbv beta iota.
    rewrite getEntries_putEntries; [done | done |].
    pose proof (putEntries_length es). lia.
Qed.

(** ** The envelope *)

Lemma plain_header_data :
  bytes.all plain "header" = true ∧ bytes.all plain "data" = true.
Proof. done. Qed.

Section envelope.
Context {L : Runtime} {HL : RuntimeLaws L}.

Lemma Pack_regular (headerBytes path data : string) (mode : Z) (w : World) :
  fs w !! path = Some (RegFile data mode) →
  Pack headerBytes path (os.info_of path (RegFile data mode)) w
  = (Next (archiveBytes (tar.mkWriter (envelope headerBytes data mode))),
     extend w [EvRead path]).
Proof.
  intros Hf. unfold Pack, tar.WriteHeader, tar.Write, tar.Flush, tar.remaining,
    tar.append_current, io.Copy, io.drain, io.write, File_Reader,
    tarWriter_Writer.
  run. change (Z.of_nat 0) with 0.
  rewrite Z.sub_0_r, Z.ltb_irrefl. simpl.
  rewrite Z.sub_diag. simpl. rewrite Hf. simpl.
  unfold tar.Write, tar.remaining, tar.append_current. simpl.
  change (Z.of_nat 0) with 0.
  rewrite Z.sub_0_r, Z.ltb_irrefl. by worlds.
Qed.


End envelope.

(** ** Composing bodies *)

Lemma bind_next {R A B} (m : Body R A) (k : A → Body R B) w a w' :
  m w = (Next a, w') → bind m k w = k a w'.
Proof. intros H. unfold bind. by rewrite H. Qed.

Lemma bind_return {R A B} (m : Body R A) (k : A → Body R B) w r w' :
  m w = (Return r, w') → bind m k w = (Return r, w').
Proof. intros H. unfold bind. by rewrite H. Qed.

Lemma safe_pure {R A} (a : A) : safe (pure (R := R) a).
Proof. by intros w why. Qed.

Lemma safe_return {R A} (r : R) : safe (return_ (A := A) r).
Proof. by intros w why. Qed.

Lemma safe_emit {R} (e : event) : safe (emit (R := R) e).
Proof. by intros w why. Qed.

Lemma safe_world {R} : safe (world (R := R)).
Proof. by intros w why. Qed.

Lemma safe_update_fs {R} name n : safe (update_fs (R := R) name n).
Proof. by intros w why. Qed.

Lemma safe_bind {R A B} (m : Body R A) (k : A → Body R B) :
  safe m → (∀ a, safe (k a)) → safe (bind m k).
Proof.
  intros Hm Hk w why. unfold bind. specialize (Hm w).
  destruct (m w) as [[a|r|why'|] w']; simpl in *; try done.
  - apply Hk.
  - intros [= ->]. by eapply Hm.
Qed.

Lemma safe_call {R A} (f : Body A A) : safe f → safe (call (R := R) f).
Proof.
  intros Hf w why. unfold call. specialize (Hf w).
  destruct (f w) as [[a|r|why'|] w']; simpl in *; try done.
  intros [= ->]. by eapply Hf.
Qed.

Lemma safe_If {R} (c : bool) (body : Body R unit) :
  safe body → safe (If c body).
Proof. intros H. destruct c; [done | apply safe_pure]. Qed.

(** After [if c { return r }] the condition is false. *)
Lemma safe_guard {R B} (c : bool) (r : R) (k : Body R B) :
  (c = false → safe k) → safe (bind (If c (return_ r)) (λ _, k)).
Proof. intros H. destruct c; [done | by apply H]. Qed.

Lemma stateless_pure {R A} (a : A) : stateless (pure (R := R) a).
Proof. by intros w w'. Qed.

Lemma stateless_return {R A} (r : R) : stateless (return_ (A := A) r).
Proof. by intros w w'. Qed.

Lemma stateless_bind {R A B} (m : Body R A) (k : A → Body R B) :
  stateless m → (∀ a, stateless (k a)) → stateless (bind m k).
Proof.
  intros Hm Hk w w'. unfold bind. rewrite (Hm w w').
  destruct (m w) as [[a|r|why|] w0]; simpl; try done. apply Hk.
Qed.

Lemma stateless_If {R} (c : bool) (body : Body R unit) :
  stateless body → stateless (If c body).
Proof. intros H. destruct c; [done | apply stateless_pure]. Qed.

Create HintDb body.
#[local] Hint Resolve safe_pure safe_return safe_emit safe_world
  safe_update_fs safe_If stateless_pure stateless_return stateless_If : body.

Ltac safe_step :=
  first
    [ apply safe_guard; intros ?
    | apply safe_bind; [| intros ?]
    | apply safe_call
    | progress auto with body ].

Ltac safe_auto := repeat first [safe_step | case_match].

Ltac stateless_auto :=
  repeat first
    [ apply stateless_bind; [| intros ?]
    | progress auto with body
    | case_match ].

(** ** The runtime never panics *)

Lemma safe_create_trunc {R} op name perm :
  safe (create_trunc (R := R) op name perm).
Proof. unfold create_trunc. safe_auto. Qed.

Lemma safe_Open {R} name : safe (os.Open (R := R) name).
Proof. unfold os.Open. safe_auto. Qed.

Lemma safe_Create {R} name : safe (os.Create (R := R) name).
Proof. unfold os.Create. pose proof (@safe_create_trunc R). safe_auto. Qed.

Lemma safe_Stat {R} f : safe (os.Stat (R := R) f).
Proof. unfold os.Stat. safe_auto. Qed.

Lemma safe_Lstat {R} name : safe (os.Lstat (R := R) name).
Proof. unfold os.Lstat. safe_auto. Qed.

Lemma safe_Chmod {R} f mode : safe (os.Chmod (R := R) f mode).
Proof. unfold os.Chmod. safe_auto. Qed.

Lemma safe_readDirNames {R} name : safe (os.readDirNames (R := R) name).
Proof. unfold os.readDirNames. safe_auto. Qed.

Lemma safe_ReadFile {R} name : safe (ioutil.ReadFile (R := R) name).
Proof. unfold ioutil.ReadFile. safe_auto. Qed.

Lemma safe_WriteFile {R} name data perm :
  safe (ioutil.WriteFile (R := R) name data perm).
Proof.
  unfold ioutil.WriteFile. pose proof (@safe_create_trunc R). safe_auto.
Qed.

Lemma safe_Printf {R} fmt args : safe (log.Printf (R := R) fmt args).
Proof. unfold log.Printf. safe_auto. Qed.

Lemma safe_PutObject {R} c bucket key body :
  safe (s3.PutObject (R := R) c bucket key body).
Proof. unfold s3.PutObject. safe_auto. by intros w why. Qed.

Lemma safe_GetObject {R} c bucket key :
  safe (s3.GetObject (R := R) c bucket key).
Proof. unfold s3.GetObject. safe_auto. Qed.

Lemma safe_drain_File {R} (f : string) : safe (io.drain (R := R) f).
Proof. unfold io.drain, File_Reader. safe_auto. Qed.

Lemma safe_write_File {R} (f p : string) : safe (io.write (R := R) f p).
Proof. unfold io.write, File_Writer. safe_auto. Qed.

Lemma safe_drain_tar {R} (tr : tar.Reader) : safe (io.drain (R := R) tr).
Proof. unfold io.drain, tarReader_Reader. safe_auto. Qed.

Lemma safe_write_tar {R} (tw : tar.Writer) p : safe (io.write (R := R) tw p).
Proof. unfold io.write, tarWriter_Writer. safe_auto. Qed.

Lemma safe_write_Hash {R} (h : Hash) p : safe (io.write (R := R) h p).
Proof. unfold io.write, Hash_Writer. safe_auto. Qed.

#[local] Hint Resolve safe_create_trunc safe_Open safe_Create safe_Stat
  safe_Lstat safe_Chmod safe_readDirNames safe_ReadFile safe_WriteFile
  safe_Printf safe_PutObject safe_GetObject safe_drain_File safe_write_File
  safe_drain_tar safe_write_tar safe_write_Hash : body.

Lemma safe_Copy {R D S} `{io.Writer D, io.Reader S} (dst : D) (src : S) :
  (∀ s, safe (io.drain (R := R) (s : S))) →
  (∀ d p, safe (io.write (R := R) (d : D) p)) →
  safe (io.Copy (R := R) dst src).
Proof. intros Hr Hw. unfold io.Copy. safe_auto. Qed.

Section stages.
Context {L : Runtime}.

Lemma calcSha1_regular (path data : string) (m : Z) w :
  fs w !! path = Some (RegFile data m) →
  calcSha1 path w
  = (Return (digest data, None), extend w [EvOpen path; EvRead path]).
Proof.
  intros Hf. unfold calcSha1, os.Open, io.Copy, io.drain, io.write,
    File_Reader, Hash_Writer, Hash_Sum.
  run. rewrite Hf. simpl. rewrite Hf. simpl. by worlds.
Qed.

Lemma calcSha1_absent (path : string) w :
  fs w !! path = None →
  calcSha1 path w
  = (Return ("", errors.Wrap (Some (ErrNotExist "open" path))
                             "failed to open file"),
     extend w [EvOpen path]).
Proof.
  intros Hf. unfold calcSha1, os.Open. run. rewrite Hf. simpl. by worlds.
Qed.

Lemma calcSha1_directory (path : string) (m : Z) w :
  fs w !! path = Some (Directory m) →
  calcSha1 path w
  = (Return ("", errors.Wrap (Some (ErrIsDir "read" path))
                             "failed to read file"),
     extend w [EvOpen path; EvRead path]).
Proof.
  intros Hf. unfold calcSha1, os.Open, io.Copy, io.drain, io.write,
    File_Reader, Hash_Writer, Hash_Sum.
  run. rewrite Hf. simpl. rewrite Hf. simpl. by worlds.
Qed.

Lemma safe_calcSha1 (path : string) : safe (calcSha1 path).
Proof.
  unfold calcSha1. pose proof (@safe_Copy). safe_auto.
Qed.

Lemma safe_Unpack (resBody : string) : safe (Unpack resBody).
Proof. unfold Unpack, ioutil_ReadAll. safe_auto. Qed.

Lemma stateless_Unpack (resBody : string) : stateless (Unpack resBody).
Proof.
  unfold Unpack, ioutil_ReadAll, io.drain, tarReader_Reader. stateless_auto.
Qed.

Lemma safe_writeTarget targetFile tarHdr tarReader :
  safe (writeTarget targetFile tarHdr tarReader).
Proof.
  unfold writeTarget. pose proof (@safe_Copy). safe_auto.
Qed.

End stages.

#[local] Arguments Unpack : simpl never.
#[local] Arguments writeTarget : simpl never.
#[local] Arguments Pack : simpl never.

Section fetch.
Context {L : Runtime}.
Implicit Types (b : s3Bin) (w : World).

(** A valid pointer whose target is absent or stale: [Get] fetches the
    object under the pointer's key, and the rest is [Unpack] and
    [writeTarget]. *)
Lemma Get_fetches b (sha1File content key blob : string) (m : Z)
    (evs : list event) w :
  let targetFile := strings.TrimSuffix sha1File ".sha1" in
  let sha1Str := ToLower (TrimSpace content) in
  strings.HasSuffix sha1File ".sha1" = true →
  fs w !! sha1File = Some (RegFile content m) →
  String.length sha1Str = 40%nat →
  NeedsFetch w targetFile sha1Str evs →
  s3_reachable w = true →
  storeKey sha1Str = Some key →
  objects w !! (s3Bucket b, key) = Some blob →
  Get b sha1File w
  = bind (Unpack blob)
         (λ '(header, tarHdr, tarReader), writeTarget targetFile tarHdr tarReader)
         (extend w (EvReadFile sha1File :: evs
                      ++ [EvGetObject (s3Bucket b) key])).
Proof.
  intros targetFile sha1Str Hsuf Hptr Hlen Hneed Hup Hkey Hobj.
  unfold Get. rewrite (TrimSuffix_shorter _ _ Hsuf) by done.
  fold targetFile. unfold ioutil.ReadFile. run. rewrite Hptr. simpl.
  fold sha1Str. rewrite Hlen. simpl.
  destruct Hneed as [Habs | data m' Hreg Hne].
  - erewrite calcSha1_absent by done. simpl.
    unfold log.Printf, s3.GetObject. run. rewrite Hkey. simpl.
    rewrite Hup. simpl. rewrite Hobj. simpl. by worlds.
  - erewrite calcSha1_regular by done. simpl.
    apply String.eqb_neq in Hne. rewrite Hne.
    unfold log.Printf, s3.GetObject. run. rewrite Hkey. simpl.
    rewrite Hup. simpl. rewrite Hobj. simpl. by worlds.
Qed.

Lemma Get_rejects b (sha1File content key blob : string) (m : Z)
    (evs : list event) w (r : option error) :
  let targetFile := strings.TrimSuffix sha1File ".sha1" in
  let sha1Str := ToLower (TrimSpace content) in
  strings.HasSuffix sha1File ".sha1" = true →
  fs w !! sha1File = Some (RegFile content m) →
  String.length sha1Str = 40%nat →
  NeedsFetch w targetFile sha1Str evs →
  s3_reachable w = true →
  storeKey sha1Str = Some key →
  objects w !! (s3Bucket b, key) = Some blob →
  (Unpack blob w).1 = Return r →
  Get b sha1File w
  = (Return r,
     extend w (EvReadFile sha1File :: evs ++ [EvGetObject (s3Bucket b) key])).
Proof.
  intros targetFile sha1Str Hsuf Hptr Hlen Hneed Hup Hkey Hobj Hrej.
  erewrite Get_fetches by done.
  apply bind_return. rewrite (stateless_Unpack blob w). by rewrite Hrej.
Qed.


Lemma Unpack_wrong_version (blob data : string) (hdr : tar.Header)
    (rest : tar.Stream) (header : Header) w :
  openArchive blob = (tar.Entry hdr data None rest, None) →
  tar.Name hdr = "header" →
  Unmarshal data = (header, None) →
  Version header ≠ version →
  Unpack blob w = (Return None, w).
Proof.
  intros Hopen Hname Hjson Hver.
  unfold Unpack, gzip_NewReader, json_Unmarshal, ioutil_ReadAll, io.drain,
    tarReader_Reader.
  rewrite Hopen. run. rewrite Hname. simpl. rewrite Hjson. simpl.
  apply Z.eqb_neq in Hver. rewrite Hver. done.
Qed.

(** C2. A fetched envelope whose header entry decodes to a version other
    than 1 makes [Get] return [nil], with no file changed: line 213 wraps
    the [nil] error of [json.Unmarshal], and [errors.Wrapf(nil, ...)] is
    [nil]. No UnsupportedVersionError reaches the caller. *)
Theorem Get_unsupported_version_returns_nil b
    (sha1File content key blob data : string) (m : Z) (evs : list event)
    (hdr : tar.Header) (rest : tar.Stream) (header : Header) w :
  strings.HasSuffix sha1File ".sha1" = true →
  fs w !! sha1File = Some (RegFile content m) →
  String.length (ToLower (TrimSpace content)) = 40%nat →
  NeedsFetch w (strings.TrimSuffix sha1File ".sha1")
             (ToLower (TrimSpace content)) evs →
  s3_reachable w = true →
  storeKey (ToLower (TrimSpace content)) = Some key →
  objects w !! (s3Bucket b, key) = Some blob →
  openArchive blob = (tar.Entry hdr data None rest, None) →
  tar.Name hdr = "header" →
  Unmarshal data = (header, None) →
  Version header ≠ version →
  Unpack blob w = (Return None, w) ∧
  ∃ w', Get b sha1File w = (Return None, w') ∧ fs w' = fs w.
Proof.
  intros Hsuf Hptr Hlen Hneed Hup Hkey Hobj Hopen Hname Hjson Hver.
  pose proof (Unpack_wrong_version _ _ _ _ _ w Hopen Hname Hjson Hver) as Hu.
  split; [done |]. eexists. split; [| shelve].
  eapply Get_rejects; try done. by rewrite Hu.
  Unshelve. done.
Qed.


Lemma safe_Get b (sha1File : string) : safe (Get b sha1File).
Proof.
  pose proof safe_calcSha1. pose proof safe_Unpack. pose proof safe_writeTarget.
  unfold Get.
  apply safe_guard; intros _.
  apply safe_bind; [auto with body |]. intros [sha1Bytes err].
  apply safe_guard; intros _.
  apply safe_guard; intros Hlen.
  apply negb_false_iff, Nat.eqb_eq in Hlen.
  rewrite storeKey_Some by lia. simpl.
  safe_auto.
Qed.

End fetch.

(** ** [Put] *)

#[local] Arguments os.info_of : simpl never.

Lemma WriteFile_existing {R} (f data data0 : string) (m0 perm : Z) w :
  fs w !! f = Some (RegFile data0 m0) →
  ioutil.WriteFile (R := R) f data perm w
  = (Next None,
     set_fs (<[f := RegFile data m0]> (fs w)) (extend w [EvWriteFile f data])).
Proof.
  intros Hf. unfold ioutil.WriteFile, create_trunc. run. rewrite Hf. simpl.
  rewrite lookup_insert_eq. simpl. unfold set_fs, extend. simpl.
  by rewrite insert_insert_eq.
Qed.

Lemma WriteFile_cases {R} (f data : string) (perm : Z) w :
  (∃ m0, ioutil.WriteFile (R := R) f data perm w
         = (Next None,
            set_fs (<[f := RegFile data m0]> (fs w))
                   (extend w [EvWriteFile f data]))) ∨
  (∃ e, ioutil.WriteFile (R := R) f data perm w
        = (Next (Some e), extend w [EvWriteFile f data])).
Proof.
  destruct (fs w !! f) as [[data0 m0|m0]|] eqn:Hf.
  - left. exists m0. by eapply WriteFile_existing.
  - right. eexists. unfold ioutil.WriteFile, create_trunc. run.
    rewrite Hf. simpl. by worlds.
  - unfold ioutil.WriteFile, create_trunc. run. rewrite Hf.
    destruct (is_dir (fs w !! filepath.Dir f)); simpl.
    + left. eexists. rewrite lookup_insert_eq. simpl.
      unfold set_fs, extend. simpl. by rewrite insert_insert_eq.
    + right. eexists. by worlds.
Qed.

Section put.
Context {L : Runtime} {HL : RuntimeLaws L}.
Implicit Types (b : s3Bin) (w : World).

Lemma digest_hex (data : string) :
  digest data = hex.EncodeToString (sha1.Sum data).
Proof. apply ToLower_lower_hex, lower_hex_EncodeToString. Qed.

Lemma length_digest (data : string) : String.length (digest data) = 40%nat.
Proof.
  rewrite digest_hex, length_EncodeToString, length_sha1_Sum. done.
Qed.

Lemma storeKey_digest (data : string) : is_Some (storeKey (digest data)).
Proof. rewrite storeKey_Some; [done | rewrite length_digest; lia]. Qed.

Lemma Put_regular b (path data key : string) (mode : Z) w :
  fs w !! path = Some (RegFile data mode) →
  storeKey (digest data) = Some key →
  Put b path w
  = if s3_reachable w then
      bind (ioutil.WriteFile (path +:+ ".sha1") (digest data) 420)
           (λ err,
              bind (If (notnil err)
                       (return_ (errors.Wrapf err
                                   "failed to create hash file %q"
                                   [path +:+ ".sha1"])))
                   (λ _, return_ None))
           (set_objects (<[(s3Bucket b, key) := blobOf data mode]> (objects w))
                        (extend w (putEvents b path key data mode)))
    else
      (Return (errors.Wrap (Some (ErrRequest "PutObject"))
                           "failed to write file in s3"),
       extend w (putEvents b path key data mode)).
Proof.
  intros Hf Hkey. unfold Put.
  erewrite (bind_next (call (calcSha1 path))); cycle 1.
  { unfold call. by erewrite calcSha1_regular. }
  unfold os.Open, os.Stat. run. rewrite Hf. simpl. rewrite Hf. simpl.
  rewrite Pack_regular by done. simpl. fold (digest data). rewrite Hkey.
  unfold s3.PutObject. run.
  unfold set_objects, putEvents, blobOf.
  destruct (s3_reachable w) eqn:Hup; simpl; worlds; [| done].
  by rewrite <- !app_assoc.
Qed.

Lemma Put_not_regular b (path : string) w :
  (∀ data mode, fs w !! path ≠ Some (RegFile data mode)) →
  ∃ e w', Put b path w = (Return (Some e), w').
Proof.
  intros Hf. unfold Put.
  destruct (fs w !! path) as [[data mode|mode]|] eqn:Hp.
  - by destruct (Hf data mode).
  - erewrite (bind_next (call (calcSha1 path))); cycle 1.
    { unfold call. by erewrite calcSha1_directory. }
    run. eauto.
  - erewrite (bind_next (call (calcSha1 path))); cycle 1.
    { unfold call. by erewrite calcSha1_absent. }
    run. eauto.
Qed.

(** C8. [Put] is idempotent. When [Put] of a file succeeds, it made one
    upload, of the envelope of the file's bytes and mode, under the key of
    the file's digest, and left [path.sha1] holding the lowercase hex
    digest; the file itself is as before.  A second [Put] then succeeds
    too, performs the very same events (the same bytes to the same key,
    the same pointer content) and changes neither a file nor an object. *)
Theorem Put_idempotent b (path content : string) (mode : Z) w w1 :
  fs w !! path = Some (RegFile content mode) →
  Put b path w = (Return None, w1) →
  let hexDigest := hex.EncodeToString (sha1.Sum content) in
  ∃ (key : string) (m0 : Z) (evs : list event) (w2 : World),
    storeKey hexDigest = Some key ∧
    bytes.all hex.is_lower_hex hexDigest = true ∧
    trace w1 = trace w ++ evs ∧
    List.filter is_s3_event evs
    = [EvPutObject (s3Bucket b) key (blobOf content mode)] ∧
    In (EvWriteFile (path +:+ ".sha1") hexDigest) evs ∧
    fs w1 !! (path +:+ ".sha1") = Some (RegFile hexDigest m0) ∧
    fs w1 !! path = Some (RegFile content mode) ∧
    Put b path w1 = (Return None, w2) ∧
    trace w2 = trace w1 ++ evs ∧
    fs w2 = fs w1 ∧ objects w2 = objects w1.
Proof.
  intros Hf Hput hexDigest.
  destruct (storeKey_digest content) as [key Hkey].
  rewrite (Put_regular b path content key mode w Hf Hkey) in Hput.
  destruct (s3_reachable w) eqn:Hup; [| done].
  set (w0 := set_objects _ _) in Hput.
  assert (path +:+ ".sha1" ≠ path) as Hne by (by apply app_neq).
  destruct (WriteFile_cases (R := option error) (path +:+ ".sha1")
              (digest content) 420 w0) as [[m0 Hw] | [e Hw]];
    unfold bind in Hput; rewrite Hw in Hput; simpl in Hput; [| done].
  injection Hput as <-.
  exists key, m0,
    (putEvents b path key content mode
       ++ [EvWriteFile (path +:+ ".sha1") hexDigest]).
  eexists. subst hexDigest. rewrite <- digest_hex.
  split; [done |].
  split; [rewrite digest_hex; apply lower_hex_EncodeToString |].
  split; [simpl; by rewrite <- app_assoc |].
  split; [done |].
  split; [apply in_or_app; right; by left |].
  split; [simpl; by rewrite lookup_insert_eq |].
  split; [simpl; by rewrite lookup_insert_ne |].
  split.
  - erewrite Put_regular; [| simpl; by rewrite lookup_insert_ne | done].
    simpl. rewrite Hup. unfold bind.
    erewrite WriteFile_existing by (simpl; by rewrite lookup_insert_eq).
    simpl. done.
  - simpl. split; [by rewrite <- !app_assoc |].
    split; [by rewrite insert_insert_eq |].
    by rewrite insert_insert_eq.
Qed.

Lemma calcSha1_length (path : string) w hash w' :
  call (R := option error) (calcSha1 path) w = (Next (hash, None), w') →
  String.length hash = 40%nat.
Proof.
  unfold call. destruct (fs w !! path) as [[data mode|mode]|] eqn:Hp.
  - erewrite calcSha1_regular by done. intros [= <- _]. apply length_digest.
  - by erewrite calcSha1_directory.
  - by erewrite calcSha1_absent.
Qed.

Lemma safe_Put b (path : string) : safe (Put b path).
Proof.
  intros w why.
  destruct (fs w !! path) as [[data mode|mode]|] eqn:Hp.
  - destruct (storeKey_digest data) as [key Hkey].
    erewrite Put_regular by done.
    destruct (s3_reachable w); [| done].
    apply safe_bind; [auto with body |]. intros err. safe_auto.
  - destruct (Put_not_regular b path w) as (e & w' & ->); [| done].
    intros ??. by rewrite Hp.
  - destruct (Put_not_regular b path w) as (e & w' & ->); [| done].
    intros ??. by rewrite Hp.
Qed.

(** C9. [storeKey] slices at fixed positions up to 20 and panics on a
    shorter string, and both call sites pass 40 bytes: the digest
    [calcSha1] returns is always 40 lowercase hex characters, which is more
    than [storeKey] needs, and neither [Put] nor [Get] ever panics. *)
Theorem storeKey_in_bounds_at_call_sites :
  (∀ hash, storeKey hash = None → (String.length hash < 20)%nat) ∧
  (∀ hash, String.length hash = 40%nat → is_Some (storeKey hash)) ∧
  (∀ data, String.length (digest data) = 40%nat ∧
           bytes.all hex.is_lower_hex (digest data) = true) ∧
  (∀ path w hash w',
     call (R := option error) (calcSha1 path) w = (Next (hash, None), w') →
     String.length hash = 40%nat) ∧
  (∀ b path, safe (Put b path)) ∧
  (∀ b sha1File, safe (Get b sha1File)).
Proof.
  split; [apply storeKey_None |].
  split; [intros hash Hlen; rewrite storeKey_Some; [done | lia] |].
  split.
  { intros data. split; [apply length_digest |].
    rewrite digest_hex. apply lower_hex_EncodeToString. }
  split; [apply calcSha1_length |].
  split; [apply safe_Put | apply safe_Get].
Qed.

End put.

(** ** Runs on concrete worlds *)


(** C4. One pointer file, in the subdirectory [r/d] of the root [r]:
    [GetDir] returns [nil] and has called [Get] on that pointer file
    twice, once from the [GetDir] the callback starts for [r/d] and once
    more when [filepath.Walk] itself descends into [r/d]. *)
Theorem GetDir_nested_pointer_fetched_twice :
  let r := GetDir (L := ref.runtime) 5 bin "r" w_tree in
  outcome r = Return None ∧
  pointerReads (trace (after r)) = ["r/d/f.sha1"; "r/d/f.sha1"] ∧
  List.filter (λ kv, String.eqb (filepath.Ext kv.1) ".sha1")
              (map_to_list (fs w_tree))
  = [("r/d/f.sha1", RegFile helloDigest 420)].
Proof. vm_compute. done. Qed.

Lemma storeKey_in_bounds_at_call_sites_witness :
  (∀ b path, safe (Put (L := ref.runtime) b path)) ∧
  (∀ b sha1File, safe (Get (L := ref.runtime) b sha1File)).
Proof.
  pose proof (storeKey_in_bounds_at_call_sites (HL := ref_runtime_laws)) as H.
  split; apply H.
Defined.

Lemma Get_without_suffix_fails_witness :
  strings.HasSuffix "app.bin" ".sha1" = false ∧
  Get (L := ref.runtime) bin "app.bin" w_hello
  = (Return (errors.New "SHA1 file doesn't have .sha1 extension"), w_hello).
Proof.
  split; [reflexivity |].
  apply (Get_without_suffix_fails (L := ref.runtime) bin "app.bin" w_hello).
  reflexivity.
Defined.

Lemma Get_invalid_pointer_returns_nil_witness :
  Get (L := ref.runtime) bin "a.sha1" w_badptr
  = (Return None, extend w_badptr [EvReadFile "a.sha1"]).
Proof.
  apply (Get_invalid_pointer_returns_nil (L := ref.runtime) bin "a.sha1"
           "abc" 420 w_badptr).
  - reflexivity.
  - vm_compute. reflexivity.
  - vm_compute. lia.
Defined.

Lemma Get_up_to_date_is_noop_witness :
  ∃ evs : list event,
    Get (L := ref.runtime) bin "app.bin.sha1" w_synced
    = (Return None, extend w_synced evs) ∧
    Forall (λ e, is_s3_event e = false) evs ∧
    fs (extend w_synced evs) = fs w_synced ∧
    objects (extend w_synced evs) = objects w_synced.
Proof.
  apply (Get_up_to_date_is_noop (L := ref.runtime) bin "app.bin.sha1"
           helloDigest "HELLO" 420 493 w_synced).
  - reflexivity.
  - vm_compute. reflexivity.
  - vm_compute. reflexivity.
  - vm_compute. reflexivity.
Defined.


Lemma Get_unsupported_version_returns_nil_witness :
  Unpack (L := ref.runtime) blobV2 (w_missing blobV2)
  = (Return None, w_missing blobV2) ∧
  ∃ w', Get (L := ref.runtime) bin "app.bin.sha1" (w_missing blobV2)
        = (Return None, w') ∧ fs w' = fs (w_missing blobV2).
Proof.
  eapply (Get_unsupported_version_returns_nil (L := ref.runtime) bin
            "app.bin.sha1" helloDigest helloKey blobV2 _ 420 _ _ _
            (mkHeader 2) (w_missing blobV2)).
  - reflexivity.
  - vm_compute. reflexivity.
  - vm_compute. reflexivity.
  - apply fetch_absent. vm_compute. reflexivity.
  - reflexivity.
  - vm_compute. reflexivity.
  - vm_compute. reflexivity.
  - vm_compute. reflexivity.
  - reflexivity.
  - vm_compute. reflexivity.
  - vm_compute. lia.
Defined.


Lemma Put_idempotent_witness :
  let w1 := after (Put (L := ref.runtime) bin "app.bin" w_hello) in
  ∃ (key : string) (m0 : Z) (evs : list event) (w2 : World),
    storeKey helloDigest = Some key ∧
    bytes.all hex.is_lower_hex helloDigest = true ∧
    trace w1 = trace w_hello ++ evs ∧
    List.filter is_s3_event evs
    = [EvPutObject (s3Bucket bin) key (blobOf (L := ref.runtime) "HELLO" 493)] ∧
    In (EvWriteFile "app.bin.sha1" helloDigest) evs ∧
    fs w1 !! "app.bin.sha1" = Some (RegFile helloDigest m0) ∧
    fs w1 !! "app.bin" = Some (RegFile "HELLO" 493) ∧
    Put (L := ref.runtime) bin "app.bin" w1 = (Return None, w2) ∧
    trace w2 = trace w1 ++ evs ∧
    fs w2 = fs w1 ∧ objects w2 = objects w1.
Proof.
  intros w1.
  apply (Put_idempotent (HL := ref_runtime_laws) bin "app.bin" "HELLO" 493
           w_hello w1).
  - vm_compute. reflexivity.
  - vm_compute. reflexivity.
Defined.

(** ** The scenarios of the specification *)

(** [app.bin] with mode 0755 and content [HELLO] is put: the pointer file
    holds the digest, and the bucket holds the envelope under the key. *)
Example Put_hello :
  let r := Put (L := ref.runtime) bin "app.bin" w_hello in
  outcome r = Return None ∧
  fs (after r) !! "app.bin.sha1" = Some (RegFile helloDigest 420) ∧
  objects (after r) !! ("bucket", helloKey) = Some blobHello.
Proof. vm_compute. done. Qed.

(** [app.bin] is missing and [Get] runs on its pointer file: the file is
    back with its content and mode. *)
Example Get_hello :
  let r := Get (L := ref.runtime) bin "app.bin.sha1" (w_missing blobHello) in
  outcome r = Return None ∧
  fs (after r) !! "app.bin" = Some (RegFile "HELLO" 493).
Proof. vm_compute. done. Qed.

(** An envelope cut short inside its [data] entry passes every check of
    [Unpack]; the error shows when the entry is copied, after the target
    has been created. *)
Example Get_cut_envelope :
  let r := Get (L := ref.runtime) bin "app.bin.sha1" (w_missing blobCut) in
  (∃ e, outcome r = Return (Some e)) ∧
  fs (after r) !! "app.bin" = Some (RegFile "HE" 420).
Proof. vm_compute. eauto. Qed.

(** ** [GetDir] on small trees *)

(** A pointer file two directories down is fetched four times. *)
Example GetDir_depth_two :
  let r := GetDir (L := ref.runtime) 6 bin "r" w_deep in
  outcome r = Return None ∧
  pointerReads (trace (after r))
  = ["r/a/b/f.sha1"; "r/a/b/f.sha1"; "r/a/b/f.sha1"; "r/a/b/f.sha1"].
Proof. vm_compute. done. Qed.

(** The first [Get] that fails ends the walk: [r/b.sha1] is never read,
    and [r/c.txt] is not even looked at. *)
Example GetDir_stops_at_first_error :
  let r := GetDir (L := ref.runtime) 5 bin "r" w_orphans in
  (∃ e, outcome r = Return (Some e)) ∧
  pointerReads (trace (after r)) = ["r/a.sha1"] ∧
  ¬ In (EvLstat "r/b.sha1") (trace (after r)) ∧
  ¬ In (EvLstat "r/c.txt") (trace (after r)).
Proof.
  vm_compute. split; [eauto |]. split; [done |].
  split; intros H; repeat (destruct H as [H|H]; [discriminate |]); done.
Qed.

(** * Further properties *)

(** ** Changes of the world *)

Lemma evolves_refl F O w : evolves F O w w.
Proof.
  repeat split; eauto. exists []. by rewrite app_nil_r.
Qed.

Lemma evolves_trans F O w1 w2 w3 :
  evolves F O w1 w2 → evolves F O w2 w3 → evolves F O w1 w3.
Proof.
  intros (Hu & Hr & Hf & Hreg & Hdir & Ho & Hk & evs & Ht)
         (Hu' & Hr' & Hf' & Hreg' & Hdir' & Ho' & Hk' & evs' & Ht').
  repeat split.
  - congruence.
  - congruence.
  - intros p Hp. rewrite Hf', Hf; done.
  - intros p d m Hp. destruct (Hreg _ _ _ Hp) as (d' & m' & Hp'). eauto.
  - intros p m Hp. destruct (Hdir _ _ Hp) as (m' & Hp'). eauto.
  - intros k Hk0. rewrite Ho', Ho; done.
  - intros k v Hv. destruct (Hk _ _ Hv) as [v' Hv']. eauto.
  - exists (evs ++ evs'). rewrite Ht', Ht. by rewrite app_assoc.
Qed.


Lemma evolves_mono (F F' : string → Prop) (O O' : string * string → Prop)
    w w' :
  (∀ p, F p → F' p) → (∀ k, O k → O' k) →
  evolves F O w w' → evolves F' O' w w'.
Proof.
  intros HF HO (Hu & Hr & Hf & Hreg & Hdir & Ho & Hk & Ht).
  repeat split; eauto.
Qed.

Lemma evolves_same F O w w' :
  umask w' = umask w → s3_reachable w' = s3_reachable w →
  fs w' = fs w → objects w' = objects w →
  (∃ evs, trace w' = trace w ++ evs) →
  evolves F O w w'.
Proof.
  intros Hu Hr Hf Ho Ht. repeat split; try done.
  - intros. by rewrite Hf.
  - intros p d m Hp. rewrite Hf. eauto.
  - intros p m Hp. rewrite Hf. eauto.
  - intros. by rewrite Ho.
  - intros k v Hv. rewrite Ho. eauto.
Qed.

Lemma evolves_file F O w w' name d m :
  umask w' = umask w → s3_reachable w' = s3_reachable w →
  fs w' = <[name := RegFile d m]> (fs w) → objects w' = objects w →
  (∃ evs, trace w' = trace w ++ evs) →
  F name → (∀ m0, fs w !! name ≠ Some (Directory m0)) →
  evolves F O w w'.
Proof.
  intros Hu Hr Hf Ho Ht HF Hnd. repeat split; try done.
  - intros p Hp. rewrite Hf, lookup_insert_ne; [done | congruence].
  - intros p d0 m0 Hp. rewrite Hf.
    destruct (decide (name = p)) as [->|Hne].
    + rewrite lookup_insert_eq. eauto.
    + rewrite lookup_insert_ne by done. eauto.
  - intros p m0 Hp. rewrite Hf.
    destruct (decide (name = p)) as [->|Hne]; [by destruct (Hnd m0) |].
    rewrite lookup_insert_ne by done. eauto.
  - intros. by rewrite Ho.
  - intros k v Hv. rewrite Ho. eauto.
Qed.

Lemma evolves_dir F O w w' name m m0 :
  umask w' = umask w → s3_reachable w' = s3_reachable w →
  fs w' = <[name := Directory m]> (fs w) → objects w' = objects w →
  (∃ evs, trace w' = trace w ++ evs) →
  F name → fs w !! name = Some (Directory m0) →
  evolves F O w w'.
Proof.
  intros Hu Hr Hf Ho Ht HF Hd. repeat split; try done.
  - intros p Hp. rewrite Hf, lookup_insert_ne; [done | congruence].
  - intros p d1 m1 Hp. rewrite Hf.
    destruct (decide (name = p)) as [->|Hne]; [congruence |].
    rewrite lookup_insert_ne by done. eauto.
  - intros p m1 Hp. rewrite Hf.
    destruct (decide (name = p)) as [->|Hne].
    + rewrite lookup_insert_eq. eauto.
    + rewrite lookup_insert_ne by done. eauto.
  - intros. by rewrite Ho.
  - intros k v Hv. rewrite Ho. eauto.
Qed.

Lemma evolves_object F O w w' k v :
  umask w' = umask w → s3_reachable w' = s3_reachable w →
  fs w' = fs w → objects w' = <[k := v]> (objects w) →
  (∃ evs, trace w' = trace w ++ evs) →
  O k →
  evolves F O w w'.
Proof.
  intros Hu Hr Hf Ho Ht HO. repeat split; try done.
  - intros. by rewrite Hf.
  - intros p d m Hp. rewrite Hf. eauto.
  - intros p m Hp. rewrite Hf. eauto.
  - intros k' Hk'. rewrite Ho, lookup_insert_ne; [done | congruence].
  - intros k' v' Hv. rewrite Ho.
    destruct (decide (k = k')) as [->|Hne].
    + rewrite lookup_insert_eq. eauto.
    + rewrite lookup_insert_ne by done. eauto.
Qed.

Ltac grown :=
  first [ by (exists []; rewrite app_nil_r)
        | eexists; rewrite <- ?app_assoc; reflexivity ].

(** ** Rules for [spec] *)

Section rules.
Context {R : Type} {F : string → Prop} {O : string * string → Prop}
  {U : Prop}.
Implicit Types (T : R → Prop).

Abbreviation rel := (evolves F O).

Lemma spec_pure {A} (N : A → Prop) T (a : A) : N a → spec rel U N T (pure a).
Proof. intros H w. simpl. split; [apply evolves_refl | done]. Qed.

Lemma spec_return {A} (N : A → Prop) T (r : R) :
  T r → spec rel U N T (return_ r).
Proof. intros H w. simpl. split; [apply evolves_refl | done]. Qed.

Lemma spec_out_of_fuel {A} (N : A → Prop) T :
  U → spec rel U N T out_of_fuel.
Proof. intros HU w. simpl. split; [apply evolves_refl | done]. Qed.

Lemma spec_bind {A B} (N1 : A → Prop) (N2 : B → Prop) T
    (m : Body R A) (k : A → Body R B) :
  spec rel U N1 T m → (∀ a, N1 a → spec rel U N2 T (k a)) →
  spec rel U N2 T (bind m k).
Proof.
  intros Hm Hk w. unfold bind. destruct (Hm w) as [Hrel Hout].
  destruct (m w) as [[a|r|why|] w']; simpl in *; try done.
  destruct (Hk a Hout w') as [Hrel' Hout'].
  split; [by eapply evolves_trans | done].
Qed.

Lemma spec_guard {B} (N : B → Prop) T (c : bool) (r : R) (k : Body R B) :
  (c = true → T r) → (c = false → spec rel U N T k) →
  spec rel U N T (bind (If c (return_ r)) (λ _, k)).
Proof.
  intros Hr Hk. destruct c.
  - intros w. simpl. split; [apply evolves_refl | by apply Hr].
  - by apply Hk.
Qed.

Lemma spec_If T (c : bool) (body : Body R unit) :
  spec rel U (λ _, True) T body → spec rel U (λ _, True) T (If c body).
Proof. intros H. destruct c; [done | by apply spec_pure]. Qed.

Lemma spec_weaken {A} (N N' : A → Prop) T T' (m : Body R A) :
  (∀ a, N a → N' a) → (∀ r, T r → T' r) →
  spec rel U N T m → spec rel U N' T' m.
Proof.
  intros HN HT Hm w. destruct (Hm w) as [Hrel Hout]. split; [done |].
  destruct (m w).1; eauto.
Qed.

Lemma spec_forEach {A} T (l : list A) (body : A → Body R unit) :
  (∀ x, spec rel U (λ _, True) T (body x)) →
  spec rel U (λ _, True) T (forEach l body).
Proof.
  intros H. induction l as [|x l IH]; simpl.
  - by apply spec_pure.
  - eapply spec_bind; [apply H | done].
Qed.

End rules.

Lemma spec_call {R A} (rel : World → World → Prop) (U : Prop)
    (N : A → Prop) (T : R → Prop) (f : Body A A) :
  spec rel U N N f → spec rel U N T (call f).
Proof.
  intros Hf w. unfold call. destruct (Hf w) as [Hrel Hout].
  destruct (f w) as [[a|r|why|] w']; done.
Qed.

Lemma spec_rel {R A} (rel rel' : World → World → Prop) (U : Prop)
    (N : A → Prop) (T : R → Prop) (m : Body R A) :
  (∀ w w', rel w w' → rel' w w') → spec rel U N T m → spec rel' U N T m.
Proof. intros H Hm w. destruct (Hm w). eauto. Qed.

(** ** What the runtime changes *)

Section primitives.
Context (F : string → Prop) (O : string * string → Prop) (U : Prop)
  {R : Type}.
Implicit Types (T : R → Prop).

Abbreviation any := (λ _, True).

Ltac prim :=
  intros w; run;
  repeat case_match; simpl in *; try discriminate;
  (split; [| done]);
  first
    [ apply evolves_refl
    | apply evolves_same; simpl; (done || grown)
    | eapply evolves_file; simpl; first [done | grown | by (intros; congruence) | eassumption]
    | eapply evolves_dir; simpl; first [done | grown | eassumption] ].

Lemma spec_emit T e : spec (evolves F O) U any T (emit (R := R) e).
Proof. prim. Qed.

Lemma spec_Open T name : spec (evolves F O) U any T (os.Open (R := R) name).
Proof. unfold os.Open. prim. Qed.

Lemma spec_Stat T f : spec (evolves F O) U any T (os.Stat (R := R) f).
Proof. unfold os.Stat. prim. Qed.

Lemma spec_Lstat T name : spec (evolves F O) U any T (os.Lstat (R := R) name).
Proof. unfold os.Lstat. prim. Qed.

Lemma spec_readDirNames T name :
  spec (evolves F O) U any T (os.readDirNames (R := R) name).
Proof. unfold os.readDirNames. prim. Qed.

Lemma spec_ReadFile T name :
  spec (evolves F O) U any T (ioutil.ReadFile (R := R) name).
Proof. unfold ioutil.ReadFile. prim. Qed.

Lemma spec_Printf T fmt args :
  spec (evolves F O) U any T (log.Printf (R := R) fmt args).
Proof. unfold log.Printf. prim. Qed.

Lemma spec_GetObject T c bucket key :
  spec (evolves F O) U any T (s3.GetObject (R := R) c bucket key).
Proof. unfold s3.GetObject. prim. Qed.

Lemma spec_PutObject T c bucket key body :
  O (bucket, key) →
  spec (evolves F O) U any T (s3.PutObject (R := R) c bucket key body).
Proof.
  intros HO w. unfold s3.PutObject. run. case_match; simpl; (split; [| done]).
  - eapply evolves_object; simpl; (done || grown).
  - apply evolves_same; simpl; (done || grown).
Qed.

Lemma spec_drain_File T (f : string) :
  spec (evolves F O) U any T (io.drain (R := R) f).
Proof. unfold io.drain, File_Reader. prim. Qed.

Lemma spec_drain_tar T (tr : tar.Reader) :
  spec (evolves F O) U any T (io.drain (R := R) tr).
Proof. unfold io.drain, tarReader_Reader. prim. Qed.

Lemma spec_write_tar T (tw : tar.Writer) p :
  spec (evolves F O) U any T (io.write (R := R) tw p).
Proof. unfold io.write, tarWriter_Writer. prim. Qed.

Lemma spec_write_Hash T (h : Hash) p :
  spec (evolves F O) U any T (io.write (R := R) h p).
Proof. unfold io.write, Hash_Writer. prim. Qed.

Lemma spec_write_File T (f p : string) :
  F f → spec (evolves F O) U (λ r, r.2 = f) T (io.write (R := R) f p).
Proof.
  intros HF w. unfold io.write, File_Writer. run.
  destruct (fs w !! f) as [[d m|m]|] eqn:Hf; simpl; (split; [| done]).
  - eapply evolves_file; simpl; first [done | grown | by (intros; congruence)].
  - apply evolves_same; simpl; (done || grown).
  - apply evolves_same; simpl; (done || grown).
Qed.

Lemma spec_write_File_any T (f p : string) :
  F f → spec (evolves F O) U any T (io.write (R := R) f p).
Proof. intros HF. eapply spec_weaken; [| | by apply spec_write_File]; done. Qed.

Lemma spec_create_trunc T op name perm :
  F name → spec (evolves F O) U any T (create_trunc (R := R) op name perm).
Proof.
  intros HF w. unfold create_trunc. run.
  destruct (fs w !! name) as [[d m|m]|] eqn:Hf; simpl.
  - split; [| done]. eapply evolves_file; simpl; first [done | grown | by (intros; congruence)].
  - split; [| done]. apply evolves_refl.
  - destruct (is_dir (fs w !! filepath.Dir name)); simpl; (split; [| done]).
    + eapply evolves_file; simpl; first [done | grown | by (intros; congruence)].
    + apply evolves_refl.
Qed.

Lemma spec_Create T name :
  F name →
  spec (evolves F O) U (λ r, r.2 = None → r.1 = name) T
       (os.Create (R := R) name).
Proof.
  intros HF. unfold os.Create.
  eapply spec_bind; [apply spec_emit | intros _ _].
  eapply spec_bind; [by apply spec_create_trunc | intros err _].
  apply spec_pure. simpl. by intros ->.
Qed.

Lemma spec_Chmod T f mode :
  F f → spec (evolves F O) U any T (os.Chmod (R := R) f mode).
Proof.
  intros HF w. unfold os.Chmod. run.
  destruct (fs w !! f) as [[d m|m]|] eqn:Hf; simpl; (split; [| done]).
  - eapply evolves_file; simpl; first [done | grown | by (intros; congruence)].
  - eapply evolves_dir; simpl; first [done | grown].
  - apply evolves_same; simpl; (done || grown).
Qed.

Lemma spec_WriteFile T name data perm :
  F name →
  spec (evolves F O) U any T (ioutil.WriteFile (R := R) name data perm).
Proof.
  intros HF. unfold ioutil.WriteFile.
  eapply spec_bind; [apply spec_emit | intros _ _].
  eapply spec_bind; [by apply spec_create_trunc | intros err _].
  destruct (notnil err); [by apply spec_pure |].
  intros w. run.
  destruct (fs w !! name) as [[d m|m]|] eqn:Hf; simpl; (split; [| done]).
  - eapply evolves_file; simpl; first [done | grown | by (intros; congruence)].
  - apply evolves_refl.
  - apply evolves_refl.
Qed.

Lemma spec_Copy_to_File T (f : string) (tr : tar.Reader) :
  F f → spec (evolves F O) U (λ r, r.1.2 = f) T (io.Copy (R := R) f tr).
Proof.
  intros HF. unfold io.Copy.
  eapply spec_bind; [apply spec_drain_tar | intros [[data er] src] _].
  eapply spec_bind; [by apply spec_write_File | intros [ew dst] Hd].
  by apply spec_pure.
Qed.

End primitives.

(** ** What the program changes *)

Lemma ownError_Wrapf err fmt args : ownError (errors.Wrapf err fmt args).
Proof. by destruct err. Qed.

Lemma ownError_Wrap err text : ownError (errors.Wrap err text).
Proof. by destruct err. Qed.

Lemma ownError_not_SkipDir err : ownError err → walk.isSkipDir err = false.
Proof. by destruct err as [[]|]. Qed.

Create HintDb specs.
#[local] Hint Resolve ownError_Wrapf ownError_Wrap spec_emit spec_Open
  spec_Stat spec_Lstat spec_readDirNames spec_ReadFile spec_Printf
  spec_GetObject spec_PutObject spec_drain_File spec_drain_tar spec_write_tar
  spec_write_Hash spec_write_File_any spec_Create spec_Chmod spec_WriteFile
  : specs.
#[local] Hint Extern 1 (ownError _) => exact I : specs.
#[local] Hint Extern 1 (_ = _) => reflexivity : specs.

Ltac spec_auto :=
  repeat first
    [ lazymatch goal with
      | |- spec _ _ _ _ (bind (If _ (return_ _)) _) =>
          apply spec_guard; [intros _ | intros ?]
      | |- spec _ _ _ _ (bind _ _) =>
          first [ eapply spec_bind; [solve [eauto with specs] | intros ? ?]
                | eapply (spec_bind (λ _, True)); [| intros ? _] ]
      | |- spec _ _ _ _ (pure _) => apply spec_pure
      | |- spec _ _ _ _ (return_ _) => apply spec_return
      | |- spec _ _ _ _ (If _ _) => apply spec_If
      end
    | solve [eauto with specs]
    | case_match ].

Section changes.
Context {L : Runtime} (F : string → Prop) (O : string * string → Prop)
  (U : Prop).
Implicit Types (b : s3Bin).

Lemma spec_calcSha1 (path : string) :
  spec (evolves F O) U (λ r, ownError r.2) (λ r, ownError r.2) (calcSha1 path).
Proof.
  unfold calcSha1, io.Copy. spec_auto.
Qed.

Lemma spec_Unpack (resBody : string) :
  spec (evolves F O) U (λ _, True) ownError (Unpack resBody).
Proof.
  unfold Unpack, ioutil_ReadAll. spec_auto.
Qed.

Lemma spec_writeTarget (N : option error → Prop) (targetFile : string)
    tarHdr tarReader :
  F targetFile →
  spec (evolves F O) U N ownError (writeTarget targetFile tarHdr tarReader).
Proof.
  intros HF. unfold writeTarget.
  eapply spec_bind; [by apply spec_Create | intros [f err] Hf].
  apply spec_guard; [intros _; apply ownError_Wrapf | intros Hnil].
  destruct err; [done |]. simpl in Hf. rewrite (Hf eq_refl).
  eapply spec_bind; [by apply spec_Copy_to_File | intros [[err f'] tr] Hf'].
  simpl in Hf'. subst f'. spec_auto.
Qed.

End changes.

Section changes_get.
Context {L : Runtime} (F : string → Prop) (O : string * string → Prop)
  (U : Prop).
Implicit Types (b : s3Bin).

Lemma spec_Get (N : option error → Prop) b (sha1File : string) :
  F (strings.TrimSuffix sha1File ".sha1") →
  spec (evolves F O) U N ownError (Get b sha1File).
Proof.
  intros HF. unfold Get.
  pose proof (spec_calcSha1 F O U) as Hsha.
  pose proof (spec_Unpack F O U) as Hunpack.
  pose proof (spec_writeTarget F O U N) as Hwrite.
  apply spec_guard; [done | intros _].
  eapply spec_bind; [apply spec_ReadFile | intros [sha1Bytes err] _].
  apply spec_guard; [intros _; apply ownError_Wrapf | intros _].
  apply spec_guard; [intros _; apply ownError_Wrapf | intros Hlen].
  apply negb_false_iff, Nat.eqb_eq in Hlen.
  rewrite storeKey_Some by lia. simpl.
  eapply spec_bind;
    [apply spec_call, Hsha | intros [existingHash err'] Herr].
  simpl in Herr.
  eapply (spec_bind (λ _, True)); [spec_auto | intros _ _].
  eapply (spec_bind (λ _, True)); [by apply spec_pure | intros key _].
  eapply spec_bind; [apply spec_GetObject | intros [res err''] _].
  apply spec_guard; [intros _; apply ownError_Wrapf | intros _].
  eapply spec_bind; [apply Hunpack | intros [[header tarHdr] tarReader] _].
  by apply Hwrite.
Qed.

End changes_get.

Section changes_put.
Context {L : Runtime} {HL : RuntimeLaws L}.
Context (F : string → Prop) (O : string * string → Prop) (U : Prop).
Implicit Types (b : s3Bin).

Lemma spec_calcSha1_length (N : string * option error → Prop)
    (path : string) :
  spec (evolves F O) U N
       (λ r, ownError r.2 ∧ (r.2 = None → String.length r.1 = 40%nat))
       (calcSha1 path).
Proof.
  unfold calcSha1, io.Copy.
  eapply spec_bind; [apply spec_Open | intros [f err] _].
  apply spec_guard; [by destruct err | intros _].
  eapply (spec_bind (λ _, True)); [spec_auto | intros [[err' hash] f'] _].
  apply spec_guard; [by destruct err' | intros _].
  apply spec_return. split; [done |]. intros _. apply length_digest.
Qed.

Lemma spec_Pack (headerBytes f : string) fstat :
  spec (evolves F O) U (λ _, True) ownError (Pack headerBytes f fstat).
Proof. unfold Pack, io.Copy. spec_auto. Qed.

Lemma spec_Put (N : option error → Prop) b (path : string) :
  F (path +:+ ".sha1") → (∀ key, O (s3Bucket b, key)) →
  spec (evolves F O) U N ownError (Put b path).
Proof.
  intros HF HO. unfold Put.
  pose proof spec_Pack as Hpack.
  eapply (spec_bind (λ r, ownError r.2 ∧
                          (r.2 = None → String.length r.1 = 40%nat))).
  { apply spec_call, spec_calcSha1_length. }
  intros [hash err] [Hown Hlen]. simpl in *.
  apply spec_guard; [done | intros Hnil].
  destruct err; [done |]. specialize (Hlen eq_refl).
  rewrite storeKey_Some by lia. simpl.
  spec_auto.
Qed.

End changes_put.

Section changes_walk.
Context (F : string → Prop) (O : string * string → Prop).

Lemma spec_walk (n : nat) (path : string) info (walkFn : walk.WalkFunc) :
  (∀ p i e, spec (evolves F O) True (λ _, True) (λ _, True) (walkFn p i e)) →
  spec (evolves F O) True (λ _, True) (λ _, True) (walk.walk n path info walkFn).
Proof.
  intros Hfn. revert path info.
  induction n as [|n IH]; intros path info; simpl.
  - by apply spec_out_of_fuel.
  - destruct (negb (os.IsDir info)).
    + eapply spec_bind; [apply spec_call, Hfn | intros r _].
      by apply spec_return.
    + eapply spec_bind; [apply spec_readDirNames | intros [names err] _].
      eapply spec_bind; [apply spec_call, Hfn | intros err1 _].
      apply spec_guard; [done | intros _].
      eapply spec_bind; [| intros _ _; by apply spec_return].
      apply spec_forEach. intros name.
      eapply spec_bind; [apply spec_Lstat | intros [fileInfo err'] _].
      destruct (notnil err').
      * eapply spec_bind; [apply spec_call, Hfn | intros err2 _].
        apply spec_If. by apply spec_return.
      * eapply spec_bind; [apply spec_call, IH | intros err2 _].
        apply spec_If. apply spec_If. by apply spec_return.
Qed.

Lemma spec_Walk (n : nat) (root : string) (walkFn : walk.WalkFunc) N :
  (∀ p i e, spec (evolves F O) True (λ _, True) (λ _, True) (walkFn p i e)) →
  spec (evolves F O) True N (λ r, walk.isSkipDir r = false)
       (walk.Walk n root walkFn).
Proof.
  intros Hfn. unfold walk.Walk.
  eapply spec_bind; [apply spec_Lstat | intros [info err] _].
  eapply (spec_bind (λ _, True)).
  { destruct (notnil err); apply spec_call; [apply Hfn | by apply spec_walk]. }
  intros err' _.
  apply spec_guard; [done | intros Hskip]. by apply spec_return.
Qed.

End changes_walk.

Section changes_batch.
Context {L : Runtime}.

Lemma spec_GetDir (fuel : nat) (b : s3Bin) (root : string) N :
  spec (evolves (λ _, True) (λ _, False)) True N
       (λ r, walk.isSkipDir r = false) (GetDir fuel b root).
Proof.
  revert root N. induction fuel as [|fuel IH]; intros root N; simpl.
  - by apply spec_out_of_fuel.
  - eapply spec_bind; [| intros r Hr; apply spec_return, Hr].
    apply spec_call, spec_Walk. intros path info err.
    apply spec_guard; [done | intros _].
    eapply (spec_bind (λ _, True)).
    { apply spec_If.
      eapply spec_bind; [apply spec_call, IH | intros r _].
      by apply spec_return. }
    intros _ _.
    apply spec_guard; [done | intros _].
    eapply spec_bind; [| intros r _; by apply spec_return].
    apply spec_call.
    by apply spec_Get.
Qed.

End changes_batch.


(** ** What [Get], [Put] and [GetDir] never do *)

Lemma evolves_objects_eq F w w' :
  evolves F (λ _, False) w w' → objects w' = objects w.
Proof.
  intros (_ & _ & _ & _ & _ & Ho & _). apply map_eq. intros k.
  apply Ho. by intros [].
Qed.

Lemma spec_returns {R A} rel (T : R → Prop) (m : Body R A) w :
  spec rel False (λ _, False) T m → ∃ r, (m w).1 = Return r ∧ T r.
Proof.
  intros H. destruct (H w) as [_ Hout].
  destruct (m w).1 as [a|r|why|]; try done. eauto.
Qed.

Section frames.
Context {L : Runtime}.
Implicit Types (b : s3Bin) (w : World).

(** X1. Whatever [Get] is run on, it returns ([nil], or an error built by
    the [errors] package), it writes nothing to the bucket, and the only
    file it can create or change is the target (the pointer path without
    [.sha1]): every other file, the pointer file of a well-named pointer
    among them, is as before, and no file or directory disappears or
    changes its kind. *)
Theorem Get_changes_only_its_target b (sha1File : string) w :
  let w' := after (Get b sha1File w) in
  let targetFile := strings.TrimSuffix sha1File ".sha1" in
  (∃ r, outcome (Get b sha1File w) = Return r ∧ ownError r) ∧
  evolves (λ p, p = targetFile) (λ _, False) w w' ∧
  objects w' = objects w ∧
  (strings.HasSuffix sha1File ".sha1" = true →
   fs w' !! sha1File = fs w !! sha1File).
Proof.
  intros w' targetFile.
  pose proof (spec_Get (λ p, p = targetFile) (λ _, False) False (λ _, False)
                b sha1File eq_refl) as Hspec.
  split; [by apply (spec_returns _ _ _ w Hspec) |].
  destruct (Hspec w) as [Hev _]. fold w' in Hev. split; [done |].
  split; [by eapply evolves_objects_eq |].
  intros Hsuf. destruct Hev as (_ & _ & Hf & _). apply Hf.
  intros Heq. pose proof (TrimSuffix_shorter _ _ Hsuf) as Hne.
  apply String.eqb_neq in Hne; [| done]. by apply Hne.
Qed.

(** X3. [GetDir] never writes to the bucket, never makes a file or a
    directory disappear or change its kind, never panics, and never
    returns [filepath.SkipDir]. *)
Theorem GetDir_never_uploads (fuel : nat) b (root : string) w :
  let w' := after (GetDir fuel b root w) in
  objects w' = objects w ∧
  evolves (λ _, True) (λ _, False) w w' ∧
  (∀ why, outcome (GetDir fuel b root w) ≠ Panic why) ∧
  outcome (GetDir fuel b root w) ≠ Return (Some SkipDir).
Proof.
  intros w'.
  destruct (spec_GetDir fuel b root (λ _, True) w) as [Hev Hout].
  fold w' in Hev. split; [by eapply evolves_objects_eq |].
  split; [done |]. unfold outcome.
  split; [intros why Hp; by rewrite Hp in Hout |].
  intros Hr. by rewrite Hr in Hout.
Qed.

End frames.

Section frames_put.
Context {L : Runtime} {HL : RuntimeLaws L}.
Implicit Types (b : s3Bin) (w : World).

(** X2. Whatever [Put] is run on, it returns ([nil], or an error built by
    the [errors] package), the only file it can create or change is
    [path.sha1], so the file it uploads is never modified, and the only
    objects it can change are in its own bucket; nothing disappears. *)
Theorem Put_changes_only_pointer_and_bucket b (path : string) w :
  let w' := after (Put b path w) in
  (∃ r, outcome (Put b path w) = Return r ∧ ownError r) ∧
  evolves (λ p, p = path +:+ ".sha1") (λ k, k.1 = s3Bucket b) w w' ∧
  fs w' !! path = fs w !! path.
Proof.
  intros w'.
  assert (spec (evolves (λ p, p = path +:+ ".sha1") (λ k, k.1 = s3Bucket b))
               False (λ _, False) ownError (Put b path)) as Hspec.
  { by apply spec_Put. }
  split; [by apply (spec_returns _ _ _ w Hspec) |].
  destruct (Hspec w) as [Hev _]. fold w' in Hev. split; [done |].
  destruct Hev as (_ & _ & Hf & _). apply Hf.
  intros Heq. by apply (app_neq path ".sha1").
Qed.

End frames_put.

(** ** Errors and edges of [calcSha1] and [Get] *)

Section get_errors.
Context {L : Runtime}.
Implicit Types (b : s3Bin) (w : World).

(** A valid pointer whose target is absent or stale: [Get] gets as far as
    the request to the bucket. *)
Lemma Get_requests b (sha1File content key : string) (m : Z)
    (evs : list event) w :
  let targetFile := strings.TrimSuffix sha1File ".sha1" in
  let sha1Str := ToLower (TrimSpace content) in
  strings.HasSuffix sha1File ".sha1" = true →
  fs w !! sha1File = Some (RegFile content m) →
  String.length sha1Str = 40%nat →
  NeedsFetch w targetFile sha1Str evs →
  storeKey sha1Str = Some key →
  Get b sha1File w
  = bind (s3.GetObject (s3Cli b) (s3Bucket b) key)
         (λ '(res, err),
            bind (If (notnil err)
                     (return_ (errors.Wrapf err
                                 "failed to read %q from S3 bucket %q"
                                 [key; s3Bucket b])))
                 (λ _, bind (Unpack res)
                         (λ '(header, tarHdr, tarReader),
                            writeTarget targetFile tarHdr tarReader)))
         (extend w (EvReadFile sha1File :: evs)).
Proof.
  intros targetFile sha1Str Hsuf Hptr Hlen Hneed Hkey.
  unfold Get. rewrite (TrimSuffix_shorter _ _ Hsuf) by done.
  fold targetFile. unfold ioutil.ReadFile.
  unfold bind at 1 2 3 4 5 6. unfold If at 1 2 3. run.
  rewrite Hptr. simpl. fold sha1Str. rewrite Hlen. simpl.
  destruct Hneed as [Habs | data m' Hreg Hne].
  - erewrite calcSha1_absent by done. simpl.
    unfold log.Printf. run. rewrite Hkey. simpl. by worlds.
  - erewrite calcSha1_regular by done. simpl.
    apply String.eqb_neq in Hne. rewrite Hne.
    unfold log.Printf. run. rewrite Hkey. simpl. by worlds.
Qed.


(** X5. A pointer path that ends in [.sha1] but names no regular file (it
    is missing, or a directory): [Get] returns the read error under
    "failed to read sha1 file", having done nothing but the attempt to
    read. *)
Theorem Get_unreadable_pointer b (sha1File : string) w :
  strings.HasSuffix sha1File ".sha1" = true →
  (∀ data m, fs w !! sha1File ≠ Some (RegFile data m)) →
  ∃ e, Get b sha1File w
       = (Return (Some (WithMessage
                          (Msg "failed to read sha1 file %q" [sha1File]) e)),
          extend w [EvReadFile sha1File]).
Proof.
  intros Hsuf Hptr. unfold Get.
  rewrite (TrimSuffix_shorter _ _ Hsuf) by done.
  unfold ioutil.ReadFile. run.
  destruct (fs w !! sha1File) as [[data m|m]|] eqn:Hf; simpl.
  - by destruct (Hptr data m).
  - eexists. by worlds.
  - eexists. by worlds.
Qed.

(** X6. A valid pointer whose target path is a directory: the failure to
    read it is not taken for absence. [Get] returns [calcSha1]'s error,
    requests nothing from the bucket and changes no file. *)
Theorem Get_target_is_directory b (sha1File content : string) (m m' : Z) w :
  let targetFile := strings.TrimSuffix sha1File ".sha1" in
  strings.HasSuffix sha1File ".sha1" = true →
  fs w !! sha1File = Some (RegFile content m) →
  String.length (ToLower (TrimSpace content)) = 40%nat →
  fs w !! targetFile = Some (Directory m') →
  Get b sha1File w
  = (Return (errors.Wrap (Some (ErrIsDir "read" targetFile))
                         "failed to read file"),
     extend w [EvReadFile sha1File; EvOpen targetFile; EvRead targetFile]).
Proof.
  intros targetFile Hsuf Hptr Hlen Hdir. unfold Get.
  rewrite (TrimSuffix_shorter _ _ Hsuf) by done. fold targetFile.
  unfold ioutil.ReadFile. run. rewrite Hptr. simpl. rewrite Hlen. simpl.
  erewrite calcSha1_directory by done. simpl. by worlds.
Qed.

(** X7. A valid pointer whose target is absent or stale, when the bucket
    cannot be reached or has no object under the pointer's key: [Get]
    returns the request's error under "failed to read ... from S3
    bucket", and every file is as it was; a stale target keeps its old
    content. *)
Theorem Get_fetch_fails b (sha1File content key : string) (m : Z)
    (evs : list event) w :
  let targetFile := strings.TrimSuffix sha1File ".sha1" in
  let sha1Str := ToLower (TrimSpace content) in
  strings.HasSuffix sha1File ".sha1" = true →
  fs w !! sha1File = Some (RegFile content m) →
  String.length sha1Str = 40%nat →
  NeedsFetch w targetFile sha1Str evs →
  storeKey sha1Str = Some key →
  s3_reachable w = false ∨ objects w !! (s3Bucket b, key) = None →
  ∃ e w',
    Get b sha1File w
    = (Return (Some (WithMessage
                       (Msg "failed to read %q from S3 bucket %q"
                            [key; s3Bucket b]) e)), w') ∧
    fs w' = fs w ∧ objects w' = objects w ∧
    trace w' = trace w ++ EvReadFile sha1File :: evs
                 ++ [EvGetObject (s3Bucket b) key].
Proof.
  intros targetFile sha1Str Hsuf Hptr Hlen Hneed Hkey Hfail.
  erewrite Get_requests by done.
  unfold s3.GetObject. run.
  destruct Hfail as [Hdown | Hnone].
  - rewrite Hdown. simpl. eexists _, _. split; [done |]. simpl.
    split; [done |]. split; [done |]. by rewrite <- app_assoc.
  - destruct (s3_reachable w); simpl.
    + rewrite Hnone. simpl. eexists _, _. split; [done |]. simpl.
      split; [done |]. split; [done |]. by rewrite <- app_assoc.
    + eexists _, _. split; [done |]. simpl.
      split; [done |]. split; [done |]. by rewrite <- app_assoc.
Qed.

End get_errors.

(** ** Restoring the target *)



Section restore.
Context {L : Runtime}.
Implicit Types (b : s3Bin) (w : World).



End restore.

(** ** [Put], and [Put] followed by [Get] *)


Section put_get.
Context {L : Runtime} {HL : RuntimeLaws L}.
Implicit Types (b : s3Bin) (w : World).

(** The world a successful [Put] leaves. *)
Lemma Put_success_world b (path content : string) (mode : Z) w w1 :
  fs w !! path = Some (RegFile content mode) →
  Put b path w = (Return None, w1) →
  ∃ (key : string) (m0 : Z),
    storeKey (digest content) = Some key ∧
    s3_reachable w = true ∧
    w1 = set_fs (<[path +:+ ".sha1" := RegFile (digest content) m0]> (fs w))
           (extend
              (set_objects
                 (<[(s3Bucket b, key) := blobOf content mode]> (objects w))
                 (extend w (putEvents b path key content mode)))
              [EvWriteFile (path +:+ ".sha1") (digest content)]).
Proof.
  intros Hf Hput.
  destruct (storeKey_digest content) as [key Hkey].
  rewrite (Put_regular b path content key mode w Hf Hkey) in Hput.
  destruct (s3_reachable w) eqn:Hup; [| done].
  set (w0 := set_objects _ _) in Hput.
  destruct (WriteFile_cases (R := option error) (path +:+ ".sha1")
              (digest content) 420 w0) as [[m0 Hw] | [e Hw]];
    unfold bind in Hput; rewrite Hw in Hput; simpl in Hput; [| done].
  injection Hput as <-. by exists key, m0.
Qed.

(** X11. [Put] of a path that names no regular file (it is missing, or a
    directory) returns an error; nothing is uploaded and no pointer file
    is written. *)
Theorem Put_without_file_fails b (path : string) w :
  (∀ data mode, fs w !! path ≠ Some (RegFile data mode)) →
  ∃ e evs,
    Put b path w = (Return (Some e), extend w evs) ∧
    Forall (λ ev, is_s3_event ev = false) evs ∧
    ∀ ev, ev ∈ evs → ∀ name data, ev ≠ EvWriteFile name data.
Proof.
  intros Hf. unfold Put.
  destruct (fs w !! path) as [[data mode|mode]|] eqn:Hp.
  - by destruct (Hf data mode).
  - erewrite (bind_next (call (calcSha1 path))); cycle 1.
    { unfold call. by erewrite calcSha1_directory. }
    run. eexists _, _. split; [done |].
    split; [by repeat constructor |].
    intros ev Hev name data ->.
    repeat (apply elem_of_cons in Hev as [Hev | Hev]; [discriminate Hev |]).
    by apply elem_of_nil in Hev.
  - erewrite (bind_next (call (calcSha1 path))); cycle 1.
    { unfold call. by erewrite calcSha1_absent. }
    run. eexists _, _. split; [done |].
    split; [by repeat constructor |].
    intros ev Hev name data ->.
    repeat (apply elem_of_cons in Hev as [Hev | Hev]; [discriminate Hev |]).
    by apply elem_of_nil in Hev.
Qed.

(** X12. When the upload fails, [Put] writes no pointer file: it returns
    the request's error under "failed to write file in s3", and the files
    and the bucket are as they were. *)
Theorem Put_upload_failure_writes_no_pointer b (path content : string)
    (mode : Z) w :
  fs w !! path = Some (RegFile content mode) →
  s3_reachable w = false →
  ∃ evs,
    Put b path w
    = (Return (errors.Wrap (Some (ErrRequest "PutObject"))
                           "failed to write file in s3"),
       extend w evs) ∧
    ∀ ev, ev ∈ evs → ∀ name data, ev ≠ EvWriteFile name data.
Proof.
  intros Hf Hdown.
  destruct (storeKey_digest content) as [key Hkey].
  rewrite (Put_regular b path content key mode w Hf Hkey), Hdown.
  eexists. split; [done |].
  intros ev Hev name data ->. unfold putEvents in Hev.
  repeat (apply elem_of_cons in Hev as [Hev | Hev]; [discriminate Hev |]).
  by apply elem_of_nil in Hev.
Qed.

(** X10. Right after a successful [Put], [Get] on the pointer file it
    wrote finds the file up to date: it returns [nil], asks the bucket
    for nothing and changes no file. *)
Theorem Put_then_Get_is_noop b (path content : string) (mode : Z) w w1 :
  TrimSpaceKeepsHex L →
  fs w !! path = Some (RegFile content mode) →
  Put b path w = (Return None, w1) →
  Get b (path +:+ ".sha1") w1
  = (Return None,
     extend w1 [EvReadFile (path +:+ ".sha1"); EvOpen path; EvRead path;
                EvLog (Msg "%q exists and is up-to-date" [path])]).
Proof.
  intros Htrim Hf Hput.
  destruct (Put_success_world _ _ _ _ _ _ Hf Hput) as (key & m0 & Hkey & Hup & ->).
  assert (path +:+ ".sha1" ≠ path) as Hne by (by apply app_neq).
  assert (ToLower (TrimSpace (digest content)) = digest content) as Hnorm.
  { rewrite digest_hex, Htrim by apply lower_hex_EncodeToString.
    apply ToLower_lower_hex, lower_hex_EncodeToString. }
  unfold Get. rewrite TrimSuffix_app.
  assert (String.eqb path (path +:+ ".sha1") = false) as ->.
  { apply String.eqb_neq. congruence. }
  unfold ioutil.ReadFile. run. rewrite lookup_insert_eq. simpl.
  rewrite Hnorm, length_digest. simpl.
  erewrite calcSha1_regular by (simpl; by rewrite lookup_insert_ne).
  simpl. rewrite String.eqb_refl. unfold log.Printf. run. by worlds.
Qed.


End put_get.

(** ** The name checks of [GetDir] and [Get] *)

Lemma get_Some_lt (s : string) (i : nat) (c : ascii) :
  String.get i s = Some c → (i < String.length s)%nat.
Proof.
  revert i. induction s as [|c' s IH]; intros [|i]; simpl; try done; try lia.
  intros H. apply IH in H. lia.
Qed.

Lemma ext_loop_suffix (path : string) (i : nat) :
  filepath.ext_loop path i = ""
  ∨ ∃ j, (j < String.length path)%nat ∧
         filepath.ext_loop path i
         = String.substring j (String.length path - j) path.
Proof.
  induction i as [|i IH]; simpl; [by left |].
  destruct (String.get i path) as [c|] eqn:Hget; [| done].
  pose proof (get_Some_lt _ _ _ Hget) as Hi.
  destruct (Ascii.eqb c "/") eqn:Hslash.
  { apply Ascii.eqb_eq in Hslash as ->. by left. }
  destruct (Ascii.eqb c ".") eqn:Hdot.
  { apply Ascii.eqb_eq in Hdot as ->. right. by exists i. }
  apply Ascii.eqb_neq in Hslash, Hdot.
  destruct c as [[] [] [] [] [] [] [] []]; try done.
Qed.

Lemma ext_loop_skip (path : string) (i : nat) (c : ascii) :
  String.get i path = Some c → c ≠ "/"%char → c ≠ "."%char →
  filepath.ext_loop path (S i) = filepath.ext_loop path i.
Proof.
  intros Hget Hslash Hdot. simpl. rewrite Hget.
  destruct c as [[] [] [] [] [] [] [] []]; done.
Qed.

Lemma ext_loop_dot (path : string) (i : nat) :
  String.get i path = Some "."%char →
  filepath.ext_loop path (S i)
  = String.substring i (String.length path - i) path.
Proof. intros Hget. simpl. by rewrite Hget. Qed.

Lemma Ext_sha1_HasSuffix (path : string) :
  filepath.Ext path = ".sha1" → strings.HasSuffix path ".sha1" = true.
Proof.
  unfold filepath.Ext. intros Hext.
  destruct (ext_loop_suffix path (String.length path)) as [He | (j & Hj & He)];
    rewrite He in Hext; [done |].
  pose proof (f_equal String.length Hext) as Hlen.
  rewrite length_substring in Hlen by lia. simpl in Hlen.
  unfold strings.HasSuffix. simpl String.length.
  apply andb_true_iff. split; [apply bool_decide_eq_true; lia |].
  apply String.eqb_eq.
  replace (String.length path - 5)%nat with j by lia.
  by rewrite <- Hlen.
Qed.

Lemma HasSuffix_Ext_sha1 (path : string) :
  strings.HasSuffix path ".sha1" = true → filepath.Ext path = ".sha1".
Proof.
  unfold strings.HasSuffix. simpl String.length.
  intros [Hlen Hsub]%andb_true_iff.
  apply bool_decide_eq_true in Hlen. apply String.eqb_eq in Hsub.
  assert (∀ k, (k < 5)%nat →
            String.get (k + (String.length path - 5)) path
            = String.get k ".sha1") as Hget.
  { intros k Hk.
    transitivity
      (String.get k (String.substring (String.length path - 5) 5 path));
      [symmetry; by apply String.substring_correct1 | by rewrite Hsub]. }
  unfold filepath.Ext.
  destruct (String.length path) as [|[|[|[|[|n]]]]] eqn:Hn; try lia.
  replace (S (S (S (S (S n)))) - 5)%nat with n in * by lia.
  pose proof (Hget 4%nat ltac:(lia)) as H4.
  pose proof (Hget 3%nat ltac:(lia)) as H3.
  pose proof (Hget 2%nat ltac:(lia)) as H2.
  pose proof (Hget 1%nat ltac:(lia)) as H1.
  pose proof (Hget 0%nat ltac:(lia)) as H0.
  simpl in H0, H1, H2, H3, H4.
  rewrite (ext_loop_skip _ _ _ H4), (ext_loop_skip _ _ _ H3),
    (ext_loop_skip _ _ _ H2), (ext_loop_skip _ _ _ H1) by done.
  rewrite (ext_loop_dot _ _ H0), Hn.
  by replace (S (S (S (S (S n)))) - n)%nat with 5%nat by lia.
Qed.

(** X13. [GetDir] passes to [Get] exactly the paths that [Get]'s own name
    check accepts: the extension of a path is [.sha1] if and only if
    trimming the suffix [.sha1] changes the path. *)
Theorem GetDir_filter_is_Get_name_check (path : string) :
  filepath.Ext path = ".sha1" ↔ strings.TrimSuffix path ".sha1" ≠ path.
Proof.
  split.
  - intros Hext%Ext_sha1_HasSuffix.
    by apply String.eqb_neq, TrimSuffix_shorter.
  - intros Hne. apply HasSuffix_Ext_sha1.
    destruct (strings.HasSuffix path ".sha1") eqn:Hsuf; [done |].
    by rewrite TrimSuffix_no_suffix in Hne.
Qed.

(** ** [Get] after [Get] *)

Section again.
Context {L : Runtime}.
Implicit Types (b : s3Bin) (w : World).


End again.

(** ** [GetDir] on roots that are not trees *)

Lemma forEach_agree {R A} (I : World → Prop) (l : list A)
    (f g : A → Body R unit) :
  (∀ x w, x ∈ l → I w → f x w = g x w) →
  (∀ x w w', x ∈ l → I w → g x w = (Next tt, w') → I w') →
  ∀ w, I w → forEach l f w = forEach l g w.
Proof.
  induction l as [|x l IH]; intros Heq Hpres w Hw; simpl; [done |].
  unfold bind. rewrite Heq by (done || by left).
  destruct (g x w) as [[[]|r|why|] w'] eqn:Hg; try done.
  apply IH.
  - intros y w0 Hy. apply Heq. by right.
  - intros y w0 w0' Hy. apply Hpres. by right.
  - eapply Hpres; [by left | done | done].
Qed.

Lemma elem_of_insert (x y : string) (l : list string) :
  x ∈ sort.insert y l ↔ x = y ∨ x ∈ l.
Proof.
  induction l as [|z l IH]; simpl.
  - rewrite elem_of_cons, elem_of_nil. tauto.
  - destruct (String.leb y z); rewrite !elem_of_cons; [done |].
    rewrite IH. tauto.
Qed.

Lemma elem_of_Strings (x : string) (l : list string) :
  x ∈ sort.Strings l ↔ x ∈ l.
Proof.
  unfold sort.Strings. induction l as [|y l IH]; simpl; [done |].
  by rewrite elem_of_insert, elem_of_cons, IH.
Qed.

Section flat.
Context {L : Runtime}.
Implicit Types (b : s3Bin) (w : World).

Lemma Get_returns b (path : string) w :
  ∃ r w', Get b path w = (Return r, w') ∧ walk.isSkipDir r = false ∧
          evolves (λ _, True) (λ _, False) w w'.
Proof.
  pose proof (spec_Get (λ _, True) (λ _, False) False (λ _, False)
                b path I) as Hspec.
  destruct (Hspec w) as [Hev Hout].
  destruct (Get b path w) as [[a|r|why|] w']; try done.
  exists r, w'. split; [done |]. split; [by apply ownError_not_SkipDir | done].
Qed.

(** X15. [GetDir] on a root that is not a directory: a missing root gives
    the error of [lstat], as it is; a file is handled as [Get] handles it
    when its name ends in [.sha1] and is left alone, with [nil], when it
    does not. *)
Theorem GetDir_root_not_directory (fuel : nat) b (root : string) w :
  (∀ m, fs w !! root ≠ Some (Directory m)) →
  GetDir (S (S fuel)) b root w
  = match fs w !! root with
    | None =>
        (Return (Some (ErrNotExist "lstat" root)), extend w [EvLstat root])
    | Some _ =>
        if String.eqb (filepath.Ext root) ".sha1"
        then Get b root (extend w [EvLstat root])
        else (Return None, extend w [EvLstat root])
    end.
Proof.
  intros Hnd. simpl GetDir. unfold walk.Walk, os.Lstat.
  destruct (fs w !! root) as [[data m|m]|] eqn:Hroot.
  - run. rewrite Hroot. simpl.
    destruct (String.eqb (filepath.Ext root) ".sha1"); simpl; [| done].
    destruct (Get_returns b root (record (EvLstat root) w))
      as (r & w' & Hget & Hskip & _).
    worlds. rewrite record_extend in Hget. run. rewrite !Hget. simpl.
    by rewrite Hskip.
  - by destruct (Hnd m).
  - run. by rewrite Hroot.
Qed.

Lemma spec_getListed b (root name : string) :
  spec (evolves (λ _, True) (λ _, False)) False (λ _, True)
       (λ r, walk.isSkipDir r = false) (getListed b root name).
Proof.
  unfold getListed.
  eapply spec_bind; [apply spec_Lstat | intros _ _].
  apply spec_If.
  eapply spec_bind.
  { apply spec_call. by apply (spec_Get _ _ _ ownError). }
  intros r Hr. apply spec_If, spec_return. by apply ownError_not_SkipDir.
Qed.

(** X16. On a directory that holds regular files only, [GetDir] does what
    one expects: it looks at each entry in sorted order, runs [Get] once
    on each whose name ends in [.sha1], stops at the first error and
    returns it, and returns [nil] when none fails. *)
Theorem GetDir_flat (fuel : nat) b (root : string) (m : Z) w :
  fs w !! root = Some (Directory m) →
  filepath.Ext root ≠ ".sha1" →
  (∀ name, name ∈ os.children (fs w) root →
     ∃ d m', fs w !! filepath.Join root name = Some (RegFile d m')) →
  GetDir (3 + fuel) b root w = getFlat b root w.
Proof.
  intros Hroot Hext Hfiles.
  change (3 + fuel)%nat with (S (S (S fuel))).
  remember (S (S fuel)) as k eqn:Hk. simpl GetDir.
  match goal with |- context [walk.Walk _ _ ?f] => set (cb := f) end.
  assert (os.Lstat (R := option error) root w
          = (Next (os.info_of root (Directory m), None),
             extend w [EvLstat root])) as HLstat.
  { unfold os.Lstat. run. by rewrite Hroot. }
  set (names := sort.Strings (os.children (fs w) root)).
  assert (os.readDirNames (R := option error) root (extend w [EvLstat root])
          = (Next (names, None), extend w [EvLstat root; EvReadDir root]))
    as HRead.
  { unfold os.readDirNames. run. rewrite Hroot. by worlds. }
  assert (∀ w', call (R := option error)
                  (cb root (os.info_of root (Directory m)) None) w'
                = (Next None, w')) as Hcb.
  { intros w'. subst cb. run. rewrite String.eqb_refl. simpl.
    apply String.eqb_neq in Hext. by rewrite Hext. }
  unfold getFlat, walk.Walk.
  rewrite (bind_next _ _ _ _ _ HLstat).
  unfold bind at 1, call at 1.
  rewrite (bind_next _ _ _ _ _ HLstat).
  cbv beta iota. change (notnil None) with false. cbv iota.
  subst k. remember (S fuel) as k eqn:Hk.
  cbn [walk.walk].
  change (os.IsDir (os.info_of root (Directory m))) with true.
  cbn [negb]. cbv iota.
  unfold bind at 1, call at 1.
  rewrite !(bind_next _ _ _ _ _ HRead). cbv beta iota.
  rewrite (bind_next _ _ _ _ _ (Hcb _)).
  change (notnil None || notnil None) with false.
  unfold If at 1. unfold bind at 1, pure at 1.
  match goal with |- context [forEach names ?f] => set (F := f) end.
  set (allFiles := λ w' : World,
         ∀ name, name ∈ names →
           ∃ d m', fs w' !! filepath.Join root name = Some (RegFile d m')).
  assert (allFiles (extend w [EvLstat root; EvReadDir root])) as Hinit.
  { intros name Hin. apply Hfiles. by apply elem_of_Strings. }
  pose proof (spec_getListed b root) as HG.
  assert (∀ name w0 w0', name ∈ names → allFiles w0 →
            getListed b root name w0 = (Next (), w0') → allFiles w0') as Hpres.
  { intros name w0 w0' _ Hall HGn x Hx.
    destruct (HG name w0) as [Hev _]. rewrite HGn in Hev.
    destruct Hev as (_ & _ & _ & Hreg & _).
    destruct (Hall x Hx) as (d & m' & Hfile). by eapply Hreg. }
  assert (∀ name w0, name ∈ names → allFiles w0 →
            F name w0 = getListed b root name w0) as Hagree.
  { intros name w0 Hin Hall. destruct (Hall name Hin) as (d & m' & Hfile).
    subst F. unfold getListed. cbv beta zeta.
    assert (os.Lstat (R := option error) (filepath.Join root name) w0
            = (Next (os.info_of (filepath.Join root name) (RegFile d m'),
                     None),
               extend w0 [EvLstat (filepath.Join root name)])) as HL0.
    { unfold os.Lstat. run. by rewrite Hfile. }
    rewrite !(bind_next _ _ _ _ _ HL0). cbv beta iota.
    change (notnil None) with false. cbv iota.
    rewrite Hk. cbn [walk.walk].
    change (os.IsDir (os.info_of (filepath.Join root name) (RegFile d m')))
      with false.
    cbn [negb]. cbv iota. subst cb.
    destruct (Get_returns b (filepath.Join root name)
                (extend w0 [EvLstat (filepath.Join root name)]))
      as (r & w0' & Hget & Hskip & _).
    run. destruct (String.eqb (filepath.Ext _) ".sha1"); simpl; [| done].
    rewrite !Hget. simpl. by destruct r as [[]|]. }
  unfold bind at 1.
  rewrite (forEach_agree allFiles names F _ Hagree Hpres _ Hinit).
  pose proof (spec_forEach (λ r, walk.isSkipDir r = false) names _ HG
                (extend w [EvLstat root; EvReadDir root])) as [_ Hout].
  unfold bind.
  destruct (forEach names _ _) as [[[]|r|why|] w3]; simpl in *; try done.
  by rewrite Hout.
Qed.
End flat.

(** ** [main] *)

Lemma spec_flag_Usage (F : string → Prop) (O : string * string → Prop)
    (U : Prop) {A} (N : A → Prop) :
  spec (evolves F O) U N (λ code, code = 0 ∨ code = 1) (flag_Usage (A := A)).
Proof.
  unfold flag_Usage. eapply (spec_bind (λ _, True)).
  - apply spec_forEach. intros text. apply spec_emit.
  - intros _ _. apply spec_return. by right.
Qed.

Lemma spec_log_Fatal (F : string → Prop) (O : string * string → Prop)
    (U : Prop) {A} (N : A → Prop) err :
  spec (evolves F O) U N (λ code, code = 0 ∨ code = 1) (log_Fatal (A := A) err).
Proof.
  unfold log_Fatal. eapply (spec_bind (λ _, True)); [apply spec_emit |].
  intros _ _. apply spec_return. by right.
Qed.

Lemma flag_Usage_run {A} w :
  ∃ evs, flag_Usage (A := A) w = (Return 1, extend w evs) ∧
         Forall (λ ev, ∃ msg, ev = EvLog msg) evs.
Proof.
  unfold flag_Usage, usageText, fmt_Fprintf_Stderr, os_Exit. run. worlds.
  eexists. split; [done |]. repeat constructor; by eexists.
Qed.

Section entry_point.
Context {L : Runtime}.
Implicit Types (w : World) (fl : Flags).

(** X17. Without a bucket, a region, or one of [-get], [-get-dir] and
    [-put], and when no session can be created, [main] ends with status 1
    and has only written to standard error: it has read no file and made
    no request. *)
Theorem main_usage_error (fuel : nat) (sessErr : option error) fl w :
  flagS3Bucket fl = "" ∨ flagAWSRegion fl = ""
  ∨ (flagGet fl = "" ∧ flagGetDir fl = "" ∧ flagPut fl = "")
  ∨ notnil sessErr = true →
  ∃ evs, main fuel sessErr fl w = (Return 1, extend w evs) ∧
         Forall (λ ev, ∃ msg, ev = EvLog msg) evs.
Proof.
  intros Hbad. unfold main.
  destruct (String.eqb (flagS3Bucket fl) "") eqn:Hb.
  { unfold If at 1. unfold bind at 1 2, log_Println, emit.
    destruct (flag_Usage_run (A := unit) (record (EvLog (Msg ("-s3-bucket is required" +:+ nl) [])) w))
      as (evs & -> & Hevs).
    worlds. eexists. split; [done |]. constructor; [by eexists | done]. }
  unfold If at 1. unfold bind at 1, pure at 1.
  destruct (String.eqb (flagAWSRegion fl) "") eqn:Hr.
  { unfold If at 1. unfold bind at 1 2, log_Println, emit.
    destruct (flag_Usage_run (A := unit) (record (EvLog (Msg ("-aws-region is required" +:+ nl) [])) w))
      as (evs & -> & Hevs).
    worlds. eexists. split; [done |]. constructor; [by eexists | done]. }
  unfold If at 1. unfold bind at 1, pure at 1.
  destruct (String.eqb (flagGet fl) "" && String.eqb (flagGetDir fl) ""
            && String.eqb (flagPut fl) "") eqn:Hnone.
  { unfold If at 1. unfold bind at 1.
    destruct (flag_Usage_run (A := unit) w) as (evs & -> & Hevs). eauto. }
  unfold If at 1. unfold bind at 1, pure at 1.
  apply String.eqb_neq in Hb, Hr.
  destruct Hbad as [? | [? | [(Hg & Hd & Hp) | Hsess]]]; try done.
  { by rewrite Hg, Hd, Hp in Hnone. }
  destruct sessErr as [e|]; [| done].
  unfold newS3Bin, log_Fatal, os_Exit. run.
  eexists. split; [by worlds |]. constructor; [by eexists | done].
Qed.

(** X18. One run does one thing: with [-get], the flags [-get-dir] and
    [-put] are ignored, and with [-get-dir] and no [-get], [-put] is. *)
Theorem main_one_operation (fuel : nat) (sessErr : option error) fl fl' w :
  flagS3Bucket fl' = flagS3Bucket fl →
  flagAWSRegion fl' = flagAWSRegion fl →
  flagGet fl' = flagGet fl →
  flagGet fl ≠ "" ∨ (flagGetDir fl ≠ "" ∧ flagGetDir fl' = flagGetDir fl) →
  main fuel sessErr fl' w = main fuel sessErr fl w.
Proof.
  intros Hb Hr Hg Hsel. unfold main. rewrite Hb, Hr, Hg.
  destruct Hsel as [Hget%String.eqb_neq | [Hdir%String.eqb_neq Hd]].
  - by rewrite Hget.
  - rewrite Hd, Hdir. by rewrite !andb_false_r.
Qed.

End entry_point.

Lemma spec_fuel {R A} rel (U U' : Prop) (N : A → Prop) (T : R → Prop)
    (m : Body R A) :
  (U → U') → spec rel U N T m → spec rel U' N T m.
Proof.
  intros HU Hm w. destruct (Hm w) as [Hrel Hout]. split; [done |].
  destruct (m w).1; eauto.
Qed.

Section entry_safe.
Context {L : Runtime} {HL : RuntimeLaws L}.

Lemma spec_main (fuel : nat) (sessErr : option error) (fl : Flags) :
  spec (evolves (λ _, True) (λ k, k.1 = flagS3Bucket fl))
       (flagGet fl = "" ∧ flagGetDir fl ≠ "")
       (λ _, False) (λ code, code = 0 ∨ code = 1)
       (main fuel sessErr fl).
Proof.
  unfold main.
  eapply (spec_bind (λ _, True)).
  { apply spec_If. eapply (spec_bind (λ _, True)); [apply spec_emit |].
    intros _ _. apply spec_flag_Usage. }
  intros _ _. eapply (spec_bind (λ _, True)).
  { apply spec_If. eapply (spec_bind (λ _, True)); [apply spec_emit |].
    intros _ _. apply spec_flag_Usage. }
  intros _ _. eapply (spec_bind (λ _, True)).
  { apply spec_If, spec_flag_Usage. }
  intros _ _. destruct sessErr as [e|]; simpl.
  { eapply (spec_bind (λ _, False)); [apply spec_log_Fatal | by intros _ []]. }
  eapply (spec_bind (λ _, True)); [by apply spec_pure |]. intros _ _.
  eapply (spec_bind (λ _, True)); [| intros _ _; apply spec_return; by left].
  destruct (String.eqb (flagGet fl) "") eqn:Hget; simpl.
  - destruct (String.eqb (flagGetDir fl) "") eqn:Hdir; simpl.
    + destruct (String.eqb (flagPut fl) ""); simpl; [by apply spec_pure |].
      eapply (spec_bind (λ _, True)); [| intros err _; apply spec_If, spec_log_Fatal].
      apply spec_call.
      eapply spec_weaken; [| | by apply (spec_Put _ _ _ (λ _, True))]; done.
    + eapply (spec_bind (λ _, True)); [| intros err _; apply spec_If, spec_log_Fatal].
      apply spec_call.
      apply String.eqb_eq in Hget. apply String.eqb_neq in Hdir.
      eapply spec_fuel; [intros _; by split |].
      eapply spec_rel; [| eapply spec_weaken; [| | apply (spec_GetDir _ _ _ (λ _, True))]; done].
      intros w w'. by apply evolves_mono.
  - eapply (spec_bind (λ _, True)); [| intros err _; apply spec_If, spec_log_Fatal].
    apply spec_call.
    eapply spec_weaken; [| | by apply (spec_Get _ _ _ (λ _, True))]; done.
Qed.

(** X19. Whatever its flags and the state of the files and the bucket,
    [main] does not panic and ends with status 0 or 1 (the model runs out
    of fuel in [GetDir] only); no file or directory disappears or changes
    its kind, and no object outside the bucket named by [-s3-bucket] is
    touched. *)
Theorem main_exit_status (fuel : nat) (sessErr : option error)
    (fl : Flags) (w : World) :
  let w' := after (main fuel sessErr fl w) in
  match outcome (main fuel sessErr fl w) with
  | Return code => code = 0 ∨ code = 1
  | OutOfFuel => flagGet fl = "" ∧ flagGetDir fl ≠ ""
  | Next _ | Panic _ => False
  end ∧
  evolves (λ _, True) (λ k, k.1 = flagS3Bucket fl) w w'.
Proof.
  intros w'. destruct (spec_main fuel sessErr fl w) as [Hev Hout].
  split; [| done]. unfold outcome. by destruct (main fuel sessErr fl w).1.
Qed.

End entry_safe.

(** ** Instances *)

Lemma isSpace_lower_hex (c : ascii) :
  hex.is_lower_hex c = true → ref.isSpace c = false.
Proof. destruct c as [[] [] [] [] [] [] [] []]; done. Qed.

Lemma trimRight_no_space (s : string) :
  bytes.all (λ c, negb (ref.isSpace c)) s = true → ref.trimRight s = s.
Proof.
  induction s as [|c s IH]; simpl; [done |].
  intros [Hc Hs]%andb_true_iff. rewrite (IH Hs).
  destruct s; [| done]. by destruct (ref.isSpace c).
Qed.

Lemma ref_TrimSpaceKeepsHex : TrimSpaceKeepsHex ref.runtime.
Proof.
  intros s Hs. simpl. unfold ref.TrimSpace.
  assert (bytes.all (λ c, negb (ref.isSpace c)) s = true) as Hns.
  { induction s as [|c s IH]; simpl in *; [done |].
    apply andb_true_iff in Hs as [Hc Hs].
    by rewrite (isSpace_lower_hex c Hc), IH. }
  assert (ref.trimLeft s = s) as ->.
  { destruct s as [|c s]; simpl in *; [done |].
    apply andb_true_iff in Hns as [Hc _]. by destruct (ref.isSpace c). }
  by apply trimRight_no_space.
Qed.

Lemma Put_changes_only_pointer_and_bucket_witness :
  let w' := after (Put (L := ref.runtime) bin "app.bin" w_hello) in
  (∃ r, outcome (Put (L := ref.runtime) bin "app.bin" w_hello) = Return r
        ∧ ownError r) ∧
  evolves (λ p, p = "app.bin" +:+ ".sha1") (λ k, k.1 = s3Bucket bin)
          w_hello w' ∧
  fs w' !! "app.bin" = fs w_hello !! "app.bin".
Proof.
  exact (Put_changes_only_pointer_and_bucket (HL := ref_runtime_laws)
           bin "app.bin" w_hello).
Defined.

Lemma Get_unreadable_pointer_witness :
  ∃ e, Get (L := ref.runtime) bin "x.sha1" w_hello
       = (Return (Some (WithMessage
                          (Msg "failed to read sha1 file %q" ["x.sha1"]) e)),
          extend w_hello [EvReadFile "x.sha1"]).
Proof.
  apply (Get_unreadable_pointer (L := ref.runtime) bin "x.sha1" w_hello).
  - reflexivity.
  - intros data m. vm_compute. discriminate.
Defined.

Lemma Get_target_is_directory_witness :
  Get (L := ref.runtime) bin "d.sha1" w_dirTarget
  = (Return (errors.Wrap (Some (ErrIsDir "read" "d")) "failed to read file"),
     extend w_dirTarget [EvReadFile "d.sha1"; EvOpen "d"; EvRead "d"]).
Proof.
  apply (Get_target_is_directory (L := ref.runtime) bin "d.sha1" helloDigest
           420 dirMode w_dirTarget).
  - reflexivity.
  - vm_compute. reflexivity.
  - vm_compute. reflexivity.
  - vm_compute. reflexivity.
Defined.

Lemma Get_fetch_fails_witness :
  ∃ e w',
    Get (L := ref.runtime) bin "r/a.sha1" w_orphans
    = (Return (Some (WithMessage
                       (Msg "failed to read %q from S3 bucket %q"
                            [helloKey; "bucket"]) e)), w') ∧
    fs w' = fs w_orphans ∧ objects w' = objects w_orphans ∧
    trace w' = trace w_orphans
                 ++ EvReadFile "r/a.sha1"
                      :: [EvOpen "r/a"; EvLog (Msg "Downloading %q" ["r/a"])]
                 ++ [EvGetObject "bucket" helloKey].
Proof.
  apply (Get_fetch_fails (L := ref.runtime) bin "r/a.sha1" helloDigest
           helloKey 420 _ w_orphans).
  - reflexivity.
  - vm_compute. reflexivity.
  - vm_compute. reflexivity.
  - apply fetch_absent. vm_compute. reflexivity.
  - vm_compute. reflexivity.
  - right. vm_compute. reflexivity.
Defined.


Lemma Put_without_file_fails_witness :
  ∃ e evs,
    Put (L := ref.runtime) bin "nope" w_hello
    = (Return (Some e), extend w_hello evs) ∧
    Forall (λ ev, is_s3_event ev = false) evs ∧
    ∀ ev, ev ∈ evs → ∀ name data, ev ≠ EvWriteFile name data.
Proof.
  apply (Put_without_file_fails (L := ref.runtime) bin "nope" w_hello).
  intros data mode. vm_compute. discriminate.
Defined.

Lemma Put_upload_failure_writes_no_pointer_witness :
  ∃ evs,
    Put (L := ref.runtime) bin "app.bin" w_offline
    = (Return (errors.Wrap (Some (ErrRequest "PutObject"))
                           "failed to write file in s3"),
       extend w_offline evs) ∧
    ∀ ev, ev ∈ evs → ∀ name data, ev ≠ EvWriteFile name data.
Proof.
  apply (Put_upload_failure_writes_no_pointer (HL := ref_runtime_laws)
           bin "app.bin" "HELLO" 493 w_offline).
  - vm_compute. reflexivity.
  - reflexivity.
Defined.

Lemma Put_then_Get_is_noop_witness :
  let w1 := after (Put (L := ref.runtime) bin "app.bin" w_hello) in
  Get (L := ref.runtime) bin ("app.bin" +:+ ".sha1") w1
  = (Return None,
     extend w1 [EvReadFile ("app.bin" +:+ ".sha1"); EvOpen "app.bin";
                EvRead "app.bin";
                EvLog (Msg "%q exists and is up-to-date" ["app.bin"])]).
Proof.
  intros w1.
  apply (Put_then_Get_is_noop (HL := ref_runtime_laws) bin "app.bin" "HELLO"
           493 w_hello w1).
  - exact ref_TrimSpaceKeepsHex.
  - vm_compute. reflexivity.
  - vm_compute. reflexivity.
Defined.



Lemma GetDir_root_not_directory_witness :
  GetDir (L := ref.runtime) 2 bin "app.bin.sha1" w_synced
  = match fs w_synced !! "app.bin.sha1" with
    | None =>
        (Return (Some (ErrNotExist "lstat" "app.bin.sha1")),
         extend w_synced [EvLstat "app.bin.sha1"])
    | Some _ =>
        if String.eqb (filepath.Ext "app.bin.sha1") ".sha1"
        then Get (L := ref.runtime) bin "app.bin.sha1"
               (extend w_synced [EvLstat "app.bin.sha1"])
        else (Return None, extend w_synced [EvLstat "app.bin.sha1"])
    end.
Proof.
  apply (GetDir_root_not_directory (L := ref.runtime) 0 bin "app.bin.sha1"
           w_synced).
  intros m. vm_compute. discriminate.
Defined.

Lemma GetDir_flat_witness :
  GetDir (L := ref.runtime) 3 bin "r" w_flat
  = getFlat (L := ref.runtime) bin "r" w_flat.
Proof.
  apply (GetDir_flat (L := ref.runtime) 0 bin "r" dirMode w_flat).
  - vm_compute. reflexivity.
  - vm_compute. discriminate.
  - apply Forall_forall.
    assert (os.children (fs w_flat) "r" = ["a.sha1"; "a"; "b.txt"]) as ->.
    { vm_compute. reflexivity. }
    repeat constructor; vm_compute; eexists _, _; reflexivity.
Defined.

Lemma main_usage_error_witness :
  ∃ evs, main (L := ref.runtime) 3 None flagsNoBucket w_synced
         = (Return 1, extend w_synced evs) ∧
         Forall (λ ev, ∃ msg, ev = EvLog msg) evs.
Proof.
  apply (main_usage_error (L := ref.runtime) 3 None flagsNoBucket w_synced).
  left. reflexivity.
Defined.

Lemma main_one_operation_witness :
  main (L := ref.runtime) 3 None flagsAll w_synced
  = main (L := ref.runtime) 3 None flagsGet w_synced.
Proof.
  apply (main_one_operation (L := ref.runtime) 3 None flagsGet flagsAll
           w_synced).
  - reflexivity.
  - reflexivity.
  - reflexivity.
  - left. discriminate.
Defined.

Lemma main_exit_status_witness :
  let w' := after (main (L := ref.runtime) 3 None flagsAll w_synced) in
  match outcome (main (L := ref.runtime) 3 None flagsAll w_synced) with
  | Return code => code = 0 ∨ code = 1
  | OutOfFuel => flagGet flagsAll = "" ∧ flagGetDir flagsAll ≠ ""
  | Next _ | Panic _ => False
  end ∧
  evolves (λ _, True) (λ k, k.1 = flagS3Bucket flagsAll) w_synced w'.
Proof.
  exact (main_exit_status (HL := ref_runtime_laws) 3 None flagsAll w_synced).
Defined.
